(** * react-native-fundamentals: providers, CLI and components

    A shallow embedding of these pieces of the repository:

    - [Toast]: [context/ToastContext.tsx], the provider holding the toast
      that is currently displayed and its auto-dismiss timer;
    - [Theme]: [context/ThemeContext.tsx], the theme mode, its persistence
      in AsyncStorage and the derived [isDark] / [theme] values;
    - [Cli]: [cli.js], the command-line tool copying component sources
      into the consuming project;
    - [Alert]: [context/AlertContext.tsx], the alert that is shown;
    - [Button], [SegmentedControl], [TextInput]: what the components in
      [components/ui] compute from their props.

    React state and refs become fields of a state record, the JavaScript
    timer table and the file system are explicit components of the state,
    a call that can throw returns its error together with the state it
    leaves, and [console] output is accumulated in a list. *)

From Stdlib Require Import ZArith Lia Bool Ascii String.
From stdpp Require Import base option list strings gmap.

Local Open Scope Z_scope.

(** ** The toast provider *)

Module Toast.

(** [duration?: number | "infinite"].  A JavaScript number is modelled as
    an integer count of milliseconds or NaN, which is all the guard
    [duration !== "infinite" && duration] can tell apart. *)
Inductive Duration : Type :=
| Millis (d : Z)
| NotANumber
| Infinite.

(** A pending entry of the JavaScript timer table.  Every timer the
    provider creates runs the same callback, [() => hideToast()]. *)
Record Timer : Type := mkTimer { handle : Z; delay : Z }.

Section Provider.

(** [ToastProps] is declared in [components/ui/Toast.tsx]; the provider
    only stores and forwards it. *)
Variable ToastProps : Type.

Record ToastItem : Type := mkToastItem { id : Z; props : ToastProps }.

(** [ShowToastParams extends ToastProps] with an optional [duration]. *)
Record ShowToastParams : Type :=
  mkParams { duration : option Duration; rest : ToastProps }.

(** [currentToast] is the [useState] cell, [nextIdRef] and [timeoutRef]
    are the two refs; [timers] and [nextHandle] are the part of the
    JavaScript runtime the provider talks to. *)
Record State : Type := mkState {
  currentToast : option ToastItem;
  nextIdRef : Z;
  timeoutRef : option Z;
  timers : list Timer;
  nextHandle : Z
}.

Definition initial : State :=
  {| currentToast := None; nextIdRef := 0; timeoutRef := None;
     timers := []; nextHandle := 1 |}.

(** Truthiness of a number that is not NaN. *)
Definition truthy (n : Z) : bool := negb (n =? 0).

(** [x++] on a double: exact below 2^53, where [x + 1] rounds back to [x]. *)
Definition js_succ (n : Z) : Z := if n <? 2 ^ 53 then n + 1 else n.

Definition clearTimeout (h : Z) (s : State) : State :=
  {| currentToast := currentToast s; nextIdRef := nextIdRef s;
     timeoutRef := timeoutRef s;
     timers := filter (fun t => handle t ≠ h) (timers s);
     nextHandle := nextHandle s |}.

(** [setTimeout(cb, d)]: registers a timer and returns its handle. *)
Definition setTimeout (d : Z) (s : State) : Z * State :=
  (nextHandle s,
   {| currentToast := currentToast s; nextIdRef := nextIdRef s;
      timeoutRef := timeoutRef s;
      timers := timers s ++ [mkTimer (nextHandle s) d];
      nextHandle := nextHandle s + 1 |}).

Definition set_timeoutRef (r : option Z) (s : State) : State :=
  {| currentToast := currentToast s; nextIdRef := nextIdRef s;
     timeoutRef := r; timers := timers s; nextHandle := nextHandle s |}.

Definition setCurrentToast (t : option ToastItem) (s : State) : State :=
  {| currentToast := t; nextIdRef := nextIdRef s;
     timeoutRef := timeoutRef s; timers := timers s;
     nextHandle := nextHandle s |}.

Definition set_nextIdRef (n : Z) (s : State) : State :=
  {| currentToast := currentToast s; nextIdRef := n;
     timeoutRef := timeoutRef s; timers := timers s;
     nextHandle := nextHandle s |}.

(** [if (timeoutRef.current) { clearTimeout(...); timeoutRef.current = null; }] *)
Definition clearPending (s : State) : State :=
  match timeoutRef s with
  | Some h =>
      if truthy h then set_timeoutRef None (clearTimeout h s) else s
  | None => s
  end.

(** The guard [duration !== "infinite" && duration]: the delay of the timer
    to start, if any. *)
Definition timer_delay (d : Duration) : option Z :=
  match d with
  | Infinite => None
  | NotANumber => None
  | Millis n => if truthy n then Some n else None
  end.

Definition showToast (p : ShowToastParams) (s : State) : State :=
  let d := default (Millis 3000) (duration p) in
  let s1 := clearPending s in
  let i := nextIdRef s1 in
  let s2 := set_nextIdRef (js_succ i) s1 in
  let s3 := setCurrentToast (Some (mkToastItem i (rest p))) s2 in
  match timer_delay d with
  | Some n => let '(h, s4) := setTimeout n s3 in set_timeoutRef (Some h) s4
  | None => s3
  end.

Definition hideToast (s : State) : State :=
  setCurrentToast None (clearPending s).

(** The timer with handle [h] elapses: the runtime drops it from the table
    and runs its callback.  A handle that is not pending cannot fire. *)
Definition fire (h : Z) (s : State) : State :=
  if bool_decide (h ∈ handle <$> timers s) then
    hideToast
      {| currentToast := currentToast s; nextIdRef := nextIdRef s;
         timeoutRef := timeoutRef s;
         timers := filter (fun t => handle t ≠ h) (timers s);
         nextHandle := nextHandle s |}
  else s.

(** Everything that can happen to a mounted provider. *)
Inductive Op : Type :=
| OpShow (p : ShowToastParams)
| OpHide
| OpFire (h : Z).

Definition step (s : State) (o : Op) : State :=
  match o with
  | OpShow p => showToast p s
  | OpHide => hideToast s
  | OpFire h => fire h s
  end.

Definition run (ops : list Op) (s : State) : State := fold_left step ops s.

(** Handles are positive, and a pending timer is the one [timeoutRef]
    points to. *)
Definition inv (s : State) : Prop :=
  0 < nextHandle s ∧
  (∀ h, timeoutRef s = Some h → 0 < h < nextHandle s) ∧
  (timers s = [] ∨ ∃ h d, timers s = [mkTimer h d] ∧ timeoutRef s = Some h).

(** The calls of [showToast] in a trace. *)
Definition is_show (o : Op) : bool :=
  match o with
  | OpShow _ => true
  | _ => false
  end.

Definition shows (ops : list Op) : Z :=
  Z.of_nat (length (List.filter is_show ops)).

(** When nothing is displayed, nothing is pending. *)
Definition idle_when_hidden (s : State) : Prop :=
  currentToast s = None → timers s = [] ∧ timeoutRef s = None.

End Provider.

Arguments mkToastItem {ToastProps}.
Arguments id {ToastProps}.
Arguments props {ToastProps}.
Arguments mkParams {ToastProps}.
Arguments duration {ToastProps}.
Arguments rest {ToastProps}.
Arguments mkState {ToastProps}.
Arguments currentToast {ToastProps}.
Arguments nextIdRef {ToastProps}.
Arguments timeoutRef {ToastProps}.
Arguments timers {ToastProps}.
Arguments nextHandle {ToastProps}.
Arguments initial {ToastProps}.
Arguments clearTimeout {ToastProps}.
Arguments setTimeout {ToastProps}.
Arguments set_timeoutRef {ToastProps}.
Arguments setCurrentToast {ToastProps}.
Arguments set_nextIdRef {ToastProps}.
Arguments clearPending {ToastProps}.
Arguments showToast {ToastProps}.
Arguments hideToast {ToastProps}.
Arguments fire {ToastProps}.
Arguments OpShow {ToastProps}.
Arguments OpHide {ToastProps}.
Arguments OpFire {ToastProps}.
Arguments step {ToastProps}.
Arguments run {ToastProps}.
Arguments inv {ToastProps}.
Arguments is_show {ToastProps}.
Arguments shows {ToastProps}.
Arguments idle_when_hidden {ToastProps}.

End Toast.

(** ** The theme provider *)

Module Theme.

(** [type ThemeMode = "light" | "dark" | "system"] *)
Inductive ThemeMode : Type := light | dark | system.

#[global] Instance ThemeMode_eq_dec : EqDecision ThemeMode.
Proof. solve_decision. Defined.

(** The string a mode is at run time. *)
Definition mode_string (m : ThemeMode) : string :=
  match m with
  | light => "light"
  | dark => "dark"
  | system => "system"
  end.

(** [stored === "light" || stored === "dark" || stored === "system"] *)
Definition accept_stored (stored : string) : option ThemeMode :=
  if String.eqb stored "light" then Some light
  else if String.eqb stored "dark" then Some dark
  else if String.eqb stored "system" then Some system
  else None.

Definition THEME_MODE_KEY : string := "themeMode".

(** What [useColorScheme()] returns when it is not null or undefined. *)
Inductive ColorScheme : Type := SchemeLight | SchemeDark.

(** AsyncStorage: the stored items, and whether the backend currently
    rejects requests.  Requests are served in the order they are issued. *)
Record AsyncStorage : Type := mkStorage {
  items : gmap string string;
  failing : bool
}.

(** A rejected promise carries an error, a resolved [getItem] carries the
    stored string or null. *)
Inductive Settled (A : Type) : Type :=
| Rejected (e : string)
| Resolved (a : A).
Arguments Rejected {A}.
Arguments Resolved {A}.

Definition storage_error : string := "AsyncStorage request failed".

Definition getItem (k : string) (st : AsyncStorage) : Settled (option string) :=
  if failing st then Rejected storage_error else Resolved (items st !! k).

Definition setItem (k v : string) (st : AsyncStorage)
  : Settled unit * AsyncStorage :=
  if failing st then (Rejected storage_error, st)
  else (Resolved (), mkStorage (<[k := v]> (items st)) (failing st)).

(** [themeMode] is the [useState] cell; [loading] is the [getItem] request
    of the mount effect while its [await] has not resumed; [errors] are the
    lines written with [console.error]. *)
Record State : Type := mkState {
  themeMode : ThemeMode;
  storage : AsyncStorage;
  loading : option (Settled (option string));
  errors : list string
}.

(** The effect with dependency [[themeMode]]: save the current mode.  The
    request is served when the effect runs, and the line that the [catch]
    writes once a rejected request has settled is recorded with it:
    [errors] holds the failed requests in the order they were issued. *)
Definition save_effect (s : State) : State :=
  match setItem THEME_MODE_KEY (mode_string (themeMode s)) (storage s) with
  | (Resolved _, st) =>
      mkState (themeMode s) st (loading s) (errors s)
  | (Rejected e, st) =>
      mkState (themeMode s) st (loading s)
        (errors s ++ ["Failed to save theme mode: " +:+ e])
  end.

(** The state setter handed out by the context.  Setting the value the
    state already has does not render again, so no effect runs. *)
Definition setThemeMode (m : ThemeMode) (s : State) : State :=
  if decide (m = themeMode s) then s
  else save_effect (mkState m (storage s) (loading s) (errors s)).

(** First render and the two effects of the mount, in source order: the
    load effect runs up to its [await], then the save effect stores the
    initial mode. *)
Definition mount (st : AsyncStorage) : State :=
  let request := getItem THEME_MODE_KEY st in
  save_effect (mkState system st (Some request) []).

(** The continuation of the load effect once [getItem] has settled. *)
Definition load_resolved (s : State) : State :=
  match loading s with
  | None => s
  | Some (Resolved (Some stored)) =>
      let s' := mkState (themeMode s) (storage s) None (errors s) in
      match accept_stored stored with
      | Some m => setThemeMode m s'
      | None => s'
      end
  | Some (Resolved None) =>
      mkState (themeMode s) (storage s) None (errors s)
  | Some (Rejected e) =>
      mkState (themeMode s) (storage s) None
        (errors s ++ ["Failed to load theme mode: " +:+ e])
  end.

Inductive Op : Type :=
| OpSetThemeMode (m : ThemeMode)
| OpLoadResolved.

Definition step (s : State) (o : Op) : State :=
  match o with
  | OpSetThemeMode m => setThemeMode m s
  | OpLoadResolved => load_resolved s
  end.

Definition run (ops : list Op) (s : State) : State := fold_left step ops s.

(** The save effect has caught up with the state. *)
Definition saved (s : State) : Prop :=
  items (storage s) !! THEME_MODE_KEY = Some (mode_string (themeMode s)).

Section Palette.

(** [blueLight] and [blueDark] are the two palettes exported by
    [themes/blueTheme.ts]. *)
Variable ThemeType : Type.
Variables blueLight blueDark : ThemeType.

Definition isDark (themeMode : ThemeMode) (systemColorScheme : option ColorScheme)
  : bool :=
  match themeMode with
  | system =>
      match systemColorScheme with
      | Some SchemeDark => true
      | _ => false
      end
  | dark => true
  | light => false
  end.

Definition theme (themeMode : ThemeMode) (systemColorScheme : option ColorScheme)
  : ThemeType :=
  if isDark themeMode systemColorScheme then blueDark else blueLight.

End Palette.

Arguments theme {ThemeType}.

End Theme.

(** ** The command-line tool *)

Module Cli.

Local Open Scope string_scope.

Definition availableComponents : list string :=
  ["Alert"; "Button"; "RadioButton"; "SafeAreaView"; "SegmentedControl";
   "Switch"; "Text"; "TextInput"; "Toast"; "View"].

Definition availableContexts : list string :=
  ["AlertContext"; "ThemeContext"; "ToastContext"].

Definition availableThemes : list string := ["blueTheme"].

(** [Array.prototype.includes] on an array of strings. *)
Definition includes (l : list string) (name : string) : bool :=
  bool_decide (name ∈ l).

Definition isValidComponent (name : string) : bool :=
  includes availableComponents name
  || includes availableContexts name
  || includes availableThemes name.

(** [console.log] writes to the output stream, [console.error] to the
    error stream. *)
Inductive Stream : Type := Out | Err.

#[global] Instance Stream_eq_dec : EqDecision Stream.
Proof. solve_decision. Defined.

(** The Error objects that reach a [catch]: a rejected file-system call on
    a path, or [process.cwd()] failing because the working directory is
    gone. *)
Inductive JsError : Type :=
| ENOENT (path : string)
| EISDIR (path : string)
| ENOTDIR (path : string)
| EACCES (path : string)
| ENOCWD.

(** How the file system refuses a copy onto a path.  Either
    [fs.ensureDir] rejects, after it has made the first [made] directories
    of those it was to make: an ancestor is a regular file, or a directory
    cannot be made.  Or the directory is there and [fs.writeFile]
    rejects. *)
Inductive Rejection : Type :=
| MkdirRejects (made : nat) (e : JsError)
| WriteRejects (e : JsError).

(** The file system: the regular files with their contents, and the
    directories, by absolute path.  [rejections] holds the paths onto
    which a copy is refused, each with the call that rejects. *)
Record World : Type := mkWorld {
  files : gmap string string;
  dirs : gset string;
  rejections : gmap string Rejection;
  console : list (Stream * string)
}.

(** The paths onto which a copy is refused. *)
Definition unwritable (w : World) : gset string := dom (rejections w).

Definition print (st : Stream) (line : string) (w : World) : World :=
  mkWorld (files w) (dirs w) (rejections w) (console w ++ [(st, line)]).

Definition log : string → World → World := print Out.
Definition error : string → World → World := print Err.

(** [fs.pathExists]: true for a file and for a directory; it never
    rejects. *)
Definition pathExists (p : string) (w : World) : bool :=
  bool_decide (is_Some (files w !! p) ∨ p ∈ dirs w).

Definition readFile (p : string) (w : World) : JsError + string :=
  match files w !! p with
  | Some content => inr content
  | None => inl (if bool_decide (p ∈ dirs w) then EISDIR p else ENOENT p)
  end.

Definition writeFile (p content : string) (w : World) : JsError + World :=
  if bool_decide (p ∈ dirs w) then inl (EISDIR p)
  else
    match rejections w !! p with
    | Some (WriteRejects e) => inl e
    | _ => inr (mkWorld (<[p := content]> (files w)) (dirs w) (rejections w)
                  (console w))
    end.

(** [path.resolve(base, rel)] for an absolute, normalised [base] and a
    relative [rel] without [.] or [..] segments. *)
Definition resolve (base rel : string) : string :=
  if String.eqb base "/" then "/" +:+ rel else base +:+ "/" +:+ rel.

(** What stands before the last ["/"] of a path, if it has one. *)
Fixpoint before_last_slash (p : string) : option string :=
  match p with
  | EmptyString => None
  | String c rest =>
      match before_last_slash rest with
      | Some d => Some (String c d)
      | None => if Ascii.eqb c "/" then Some EmptyString else None
      end
  end.

(** [path.dirname] of a normalised path. *)
Definition path_dirname (p : string) : string :=
  match before_last_slash p with
  | Some EmptyString => "/"
  | Some d => d
  | None => "."
  end.

(** The prefixes of a path that end just before a ["/"]. *)
Fixpoint slash_prefixes (p : string) : list string :=
  match p with
  | EmptyString => []
  | String c rest =>
      (if Ascii.eqb c "/" then [EmptyString] else [])
      ++ (String c <$> slash_prefixes rest)
  end.

(** The ancestors of a directory below the root and the directory itself,
    the nearest to the root first. *)
Definition dir_chain (d : string) : list string :=
  List.filter (fun q => negb (String.eqb q EmptyString)) (slash_prefixes d)
  ++ [d].

Definition mkdirs (l : list string) (w : World) : World :=
  mkWorld (files w) (dirs w ∪ list_to_set l) (rejections w) (console w).

(** A call that has returned a value or thrown an error, with the world it
    leaves. *)
Inductive Result (A : Type) : Type :=
| Returned (a : A) (w : World)
| Thrown (e : JsError) (w : World).
Arguments Returned {A}.
Arguments Thrown {A}.

Definition world {A : Type} (r : Result A) : World :=
  match r with
  | Returned _ w => w
  | Thrown _ w => w
  end.

(** [fs.ensureDir(d)] in the copy onto [targetPath]: it makes the
    directory and the ancestors it lacks, from the root down, and leaves
    what it has made when it rejects. *)
Definition ensureDir (d targetPath : string) (w : World) : Result unit :=
  match rejections w !! targetPath with
  | Some (MkdirRejects made e) => Thrown e (mkdirs (take made (dir_chain d)) w)
  | _ => Returned tt (mkdirs (dir_chain d) w)
  end.

Definition dquote : string := String "034"%char EmptyString.

Definition help_text : string := "
React Native Fundamentals CLI

Usage:
  npx react-native-fundamentals [command] [options]

Commands:
  add <component>    Add a component to your project
  list               List all available components
  help               Show this help information

Examples:
  npx react-native-fundamentals add Button
  npx react-native-fundamentals add ThemeContext
  npx react-native-fundamentals add all
  npx react-native-fundamentals list
  ".

Definition showHelp (w : World) : World := log help_text w.

(** [list.forEach((x) => console.log(`  - ${x}`))] *)
Definition log_items (l : list string) (w : World) : World :=
  fold_left (fun w x => log ("  - " +:+ x) w) l w.

Definition listComponents (w : World) : World :=
  let w := log "Available components:" w in
  let w := log_items availableComponents w in
  let w := log (String "010"%char "Available themes:") w in
  log_items availableThemes w.

Definition msg_created (p : string) : string := "✅ Created " +:+ p.
Definition msg_exists (name : string) : string :=
  "ℹ️  " +:+ name +:+ " already exists in your project.".
Definition msg_no_context (name : string) : string :=
  "❌ Context " +:+ dquote +:+ name +:+ dquote +:+ " is not available.".
Definition msg_no_component (name : string) : string :=
  "❌ Component " +:+ dquote +:+ name +:+ dquote +:+ " is not available.".
Definition msg_auto_added (name : string) : string :=
  "✅ Automatically added " +:+ name +:+ " (required dependency)".
Definition msg_added (name : string) : string :=
  "✅ Successfully added " +:+ name.
Definition msg_no_name : string := "❌ Please specify a component name".
Definition msg_added_all : string :=
  "✅ Successfully added all components, contexts, and themes.".
Definition msg_unknown_command (command : option string) : string :=
  "❌ Unknown command: " +:+ default "undefined" command.

(** The sources in the package and the targets in the project, for the
    directory [__dirname] of the package and the directory [cwd] that
    [process.cwd()] returns. *)
Definition context_source (dirname name : string) : string :=
  resolve dirname ("context/" +:+ name +:+ ".tsx").
Definition context_target (cwd name : string) : string :=
  resolve (resolve cwd "context") (name +:+ ".tsx").
Definition component_source (dirname name : string) : string :=
  resolve dirname ("components/ui/" +:+ name +:+ ".tsx").
Definition component_target (cwd name : string) : string :=
  resolve (resolve (resolve cwd "components") "ui") (name +:+ ".tsx").
Definition theme_source (dirname name : string) : string :=
  resolve dirname ("themes/" +:+ name +:+ ".ts").
Definition theme_target (cwd name : string) : string :=
  resolve (resolve cwd "themes") (name +:+ ".ts").

(** The dependencies announced after an add. *)
Definition requiredDeps (componentName : string) : list string :=
  if String.eqb componentName "Toast" then
    ["react-native-gesture-handler"; "react-native-safe-area-context";
     "react-native-reanimated"]
  else if String.eqb componentName "SafeAreaView" then
    ["react-native-safe-area-context"]
  else [].

(** [requiredDeps.join(", ")] *)
Fixpoint join (l : list string) : string :=
  match l with
  | [] => EmptyString
  | [x] => x
  | x :: rest => x +:+ ", " +:+ join rest
  end.

(** Lines 239 to 261: the success message and the dependencies. *)
Definition announce (componentName : string) (w : World) : World :=
  let w := log (msg_added componentName) w in
  match requiredDeps componentName with
  | [] => w
  | deps =>
      log ("Required dependencies for " +:+ componentName +:+ ": "
           +:+ join deps) w
  end.

Definition allItems : list string := availableComponents ++ availableThemes.

Section Process.

(** [inspect] is the text that [console.error] prints for an Error object
    passed as a further argument (node's [util.inspect]).  [dirname] is
    [__dirname], the directory of the installed package.  [cwd] is what
    [process.cwd()] returns, [None] when it throws. *)
Variable inspect : JsError → string.
Variable dirname : string.
Variable cwd : option string.

Definition msg_failed (src : string) (e : JsError) : string :=
  "❌ Failed to copy " +:+ src +:+ ": " +:+ inspect e.
Definition msg_error_occurred (e : JsError) : string :=
  "❌ An error occurred: " +:+ inspect e.

Definition process_cwd (w : World) : Result string :=
  match cwd with
  | Some d => Returned d w
  | None => Thrown ENOCWD w
  end.

(** The [try] block ends at the first rejected call. *)
Definition copyFile (sourcePath targetPath : string) (w : World)
  : bool * World :=
  match ensureDir (path_dirname targetPath) targetPath w with
  | Thrown e w => (false, error (msg_failed sourcePath e) w)
  | Returned _ w =>
      match readFile sourcePath w with
      | inl e => (false, error (msg_failed sourcePath e) w)
      | inr content =>
          match writeFile targetPath content w with
          | inl e => (false, error (msg_failed sourcePath e) w)
          | inr w' => (true, log (msg_created targetPath) w')
          end
      end
  end.

Definition addRelatedContext (contextName : string) (w : World)
  : Result bool :=
  if negb (includes availableContexts contextName) then
    Returned false (error (msg_no_context contextName) w)
  else
    let sourcePath := context_source dirname contextName in
    match process_cwd w with
    | Thrown e w => Thrown e w
    | Returned d w =>
        let targetPath := context_target d contextName in
        if pathExists targetPath w then
          Returned true (log (msg_exists contextName) w)
        else
          let '(success, w) := copyFile sourcePath targetPath w in
          Returned success
            (if success then log (msg_auto_added contextName) w else w)
    end.

(** Lines 192 to 236 of [cli.js]: the branch on the kind of the name,
    giving the final value of [added]. *)
Definition place (componentName : string) (w : World) : Result bool :=
  if includes availableComponents componentName then
    let sourcePath := component_source dirname componentName in
    match process_cwd w with
    | Thrown e w => Thrown e w
    | Returned d w =>
        let targetPath := component_target d componentName in
        if pathExists targetPath w then
          Returned false (log (msg_exists componentName) w)
        else
          let w := (copyFile sourcePath targetPath w).2 in
          if String.eqb componentName "Toast" then
            match addRelatedContext "ToastContext" w with
            | Thrown e w => Thrown e w
            | Returned _ w => Returned true w
            end
          else if String.eqb componentName "Alert" then
            match addRelatedContext "AlertContext" w with
            | Thrown e w => Thrown e w
            | Returned _ w => Returned true w
            end
          else Returned true w
    end
  else if includes availableContexts componentName then
    let sourcePath := context_source dirname componentName in
    match process_cwd w with
    | Thrown e w => Thrown e w
    | Returned d w =>
        let targetPath := context_target d componentName in
        if pathExists targetPath w then
          Returned false (log (msg_exists componentName) w)
        else Returned true (copyFile sourcePath targetPath w).2
    end
  else if includes availableThemes componentName then
    let sourcePath := theme_source dirname componentName in
    match process_cwd w with
    | Thrown e w => Thrown e w
    | Returned d w =>
        let targetPath := theme_target d componentName in
        if pathExists targetPath w then
          Returned false (log (msg_exists componentName) w)
        else
          let w := (copyFile sourcePath targetPath w).2 in
          match addRelatedContext "ThemeContext" w with
          | Thrown e w => Thrown e w
          | Returned _ w => Returned true w
          end
    end
  else Returned false w.

(** The part of [addComponent] after the name has been found valid. *)
Definition addValid (componentName : string) (w : World) : Result unit :=
  match place componentName w with
  | Thrown e w => Thrown e w
  | Returned added w =>
      Returned tt (if added then announce componentName w else w)
  end.

(** [addComponent] for a name that is neither missing nor ["all"]. *)
Definition addNamed (componentName : string) (w : World) : Result unit :=
  if negb (isValidComponent componentName) then
    let w := error (msg_no_component componentName) w in
    let w := log "Available components:" w in
    let w := log_items availableComponents w in
    let w := log "Available themes:" w in
    Returned tt (log_items availableThemes w)
  else addValid componentName w.

(** [for (const item of allItems) { await addComponent(item); }]: the
    loop ends at the first call that throws. *)
Fixpoint addEach (items : list string) (w : World) : Result unit :=
  match items with
  | [] => Returned tt w
  | item :: rest =>
      match addNamed item w with
      | Thrown e w => Thrown e w
      | Returned _ w => addEach rest w
      end
  end.

(** [process.argv[3]] is undefined when the argument is absent.  The
    recursive calls of the ["all"] branch are on the elements of
    [allItems], none of which is empty or ["all"], so each of them is a
    call of [addNamed]. *)
Definition addComponent (componentName : option string) (w : World)
  : Result unit :=
  match componentName with
  | None => Returned tt (showHelp (error msg_no_name w))
  | Some name =>
      if String.eqb name EmptyString then
        Returned tt (showHelp (error msg_no_name w))
      else if String.eqb name "all" then
        match addEach allItems w with
        | Thrown e w => Thrown e w
        | Returned _ w => Returned tt (log msg_added_all w)
        end
      else addNamed name w
  end.

(** The [try] block of [main]: the [switch] on the command. *)
Definition dispatch (command componentName : option string) (w : World)
  : Result unit :=
  match command with
  | Some c =>
      if String.eqb c "add" then addComponent componentName w
      else if String.eqb c "list" then Returned tt (listComponents w)
      else if String.eqb c "help" then Returned tt (showHelp w)
      else Returned tt (showHelp (error (msg_unknown_command command) w))
  | None => Returned tt (showHelp (error (msg_unknown_command command) w))
  end.

(** [main]: the final world and the exit status of the process, 0 when
    the [try] block completes and 1 when the handler of a thrown error
    calls [process.exit(1)]. *)
Definition main (command componentName : option string) (w : World)
  : World * Z :=
  match dispatch command componentName w with
  | Returned _ w => (w, 0%Z)
  | Thrown e w => (error (msg_error_occurred e) w, 1%Z)
  end.

End Process.

(** The [sourcePath] and [targetPath] that [addComponent] computes for a
    valid name. *)
Definition source_path (dirname componentName : string) : string :=
  if includes availableComponents componentName then
    component_source dirname componentName
  else if includes availableContexts componentName then
    context_source dirname componentName
  else theme_source dirname componentName.

Definition target_path (cwd componentName : string) : string :=
  if includes availableComponents componentName then
    component_target cwd componentName
  else if includes availableContexts componentName then
    context_target cwd componentName
  else theme_target cwd componentName.

(** *** Vocabulary of the properties *)

Local Open Scope list_scope.

(** A rendering of Error objects for examples, by their code. *)
Definition code_of (e : JsError) : string :=
  match e with
  | ENOENT _ => "ENOENT"
  | EISDIR _ => "EISDIR"
  | ENOTDIR _ => "ENOTDIR"
  | EACCES _ => "EACCES"
  | ENOCWD => "ENOENT (uv_cwd)"
  end.

(** The five kinds of line the tool writes with [console.error]. *)
Definition error_line (inspect : JsError → string) (l : string) : Prop :=
  l = msg_no_name ∨ (∃ n, l = msg_no_component n) ∨
  (∃ c, l = msg_unknown_command c) ∨
  (∃ src e, l = msg_failed inspect src e) ∨
  (∃ e, l = msg_error_occurred inspect e).

(** [w'] comes after [w]: every file of [w] is still there with its
    content and every directory is still there, the same copies are
    refused, and the console has only grown, its new error lines being of
    the five kinds. *)
Record follows (inspect : JsError → string) (w w' : World) : Prop :=
  mkFollows {
  follows_files : files w ⊆ files w';
  follows_dirs : dirs w ⊆ dirs w';
  follows_rejections : rejections w' = rejections w;
  follows_console :
    ∃ out, console w' = console w ++ out ∧
           ∀ l, (Err, l) ∈ out → error_line inspect l
}.

(** [x] is a line written between [w] and [w']. *)
Definition printed (w w' : World) (x : Stream * string) : Prop :=
  x ∈ drop (length (console w)) (console w').

(** The lines listing what is available, as [listComponents] and the
    unknown-component branch print them. *)
Definition item_lines (l : list string) : list (Stream * string) :=
  (fun x => (Out, "  - " +:+ x)) <$> l.

Definition unknown_component_lines (n : string) : list (Stream * string) :=
  [(Err, msg_no_component n); (Out, "Available components:")]
  ++ item_lines availableComponents
  ++ [(Out, "Available themes:")] ++ item_lines availableThemes.

Definition list_lines : list (Stream * string) :=
  [(Out, "Available components:")] ++ item_lines availableComponents
  ++ [(Out, String "010"%char "Available themes:")]
  ++ item_lines availableThemes.

(** The two cases the specification names, and an invocation that writes
    to the error stream. *)
Definition unknown_component_case (command name : option string) : Prop :=
  command = Some "add" ∧
  ∃ n, name = Some n ∧ n ≠ EmptyString ∧ n ≠ "all" ∧
       isValidComponent n = false.

Definition already_exists_case (cwd : string) (command name : option string)
    (w : World) : Prop :=
  command = Some "add" ∧
  ∃ n, name = Some n ∧ isValidComponent n = true ∧
       pathExists (target_path cwd n) w = true.

Definition reports_error (w w' : World) : Prop :=
  ∃ l, printed w w' (Err, l).

(** The target of a name relative to the root of the project, and the
    directory of that target. *)
Definition rel_target (componentName : string) : string :=
  if includes availableComponents componentName then
    "/components/ui/" +:+ componentName +:+ ".tsx"
  else if includes availableContexts componentName then
    "/context/" +:+ componentName +:+ ".tsx"
  else "/themes/" +:+ componentName +:+ ".ts".

Definition rel_dir (componentName : string) : string :=
  if includes availableComponents componentName then "/components/ui"
  else if includes availableContexts componentName then "/context"
  else "/themes".

(** The context that [addComponent] adds along with a name: lines 203 to
    207 and line 233. *)
Definition related_context (componentName : string) : option string :=
  if includes availableComponents componentName then
    if String.eqb componentName "Toast" then Some "ToastContext"
    else if String.eqb componentName "Alert" then Some "AlertContext"
    else None
  else if includes availableContexts componentName then None
  else if includes availableThemes componentName then Some "ThemeContext"
  else None.

(** The directories that the copy onto a target may make. *)
Definition target_dirs (targetPath : string) : list string :=
  dir_chain (path_dirname targetPath).

End Cli.

(** ** The alert provider *)

Module Alert.

Section Provider.

(** The content of an alert is a React node and its style a style prop;
    the provider only stores them and hands them to [Alert]. *)
Variables ReactNode StyleProp : Type.

(** [AlertOptions]: both fields are optional. *)
Record AlertOptions : Type := mkOptions {
  style : option StyleProp;
  dismissOnBackdropPress : option bool
}.

(** The object [{}]. *)
Definition no_options : AlertOptions := mkOptions None None.

(** [content] is [None] for a null node. *)
Record ShowAlertParams : Type := mkParams {
  content : option ReactNode;
  options : option AlertOptions
}.

(** The three [useState] cells. *)
Record State : Type := mkState {
  isVisible : bool;
  alertContent : option ReactNode;
  alertOptions : AlertOptions
}.

Definition initial : State := mkState false None no_options.

Definition showAlert (p : ShowAlertParams) (s : State) : State :=
  let s := mkState (isVisible s) (content p) (alertOptions s) in
  let s := mkState (isVisible s) (alertContent s)
             (default no_options (options p)) in
  mkState true (alertContent s) (alertOptions s).

Definition hideAlert (s : State) : State :=
  mkState false (alertContent s) (alertOptions s).

Inductive Op : Type :=
| OpShowAlert (p : ShowAlertParams)
| OpHideAlert.

Definition step (s : State) (o : Op) : State :=
  match o with
  | OpShowAlert p => showAlert p s
  | OpHideAlert => hideAlert s
  end.

Definition run (ops : list Op) (s : State) : State := fold_left step ops s.

(** The parameters of the most recent [showAlert] of a trace. *)
Definition last_shown (ops : list Op) : option ShowAlertParams :=
  fold_left (fun acc o => match o with
                          | OpShowAlert p => Some p
                          | OpHideAlert => acc
                          end) ops None.

Definition ends_with_show (ops : list Op) : bool :=
  match last ops with
  | Some (OpShowAlert _) => true
  | _ => false
  end.

End Provider.

Arguments mkOptions {StyleProp}.
Arguments style {StyleProp}.
Arguments dismissOnBackdropPress {StyleProp}.
Arguments no_options {StyleProp}.
Arguments mkParams {ReactNode StyleProp}.
Arguments content {ReactNode StyleProp}.
Arguments options {ReactNode StyleProp}.
Arguments mkState {ReactNode StyleProp}.
Arguments isVisible {ReactNode StyleProp}.
Arguments alertContent {ReactNode StyleProp}.
Arguments alertOptions {ReactNode StyleProp}.
Arguments initial {ReactNode StyleProp}.
Arguments showAlert {ReactNode StyleProp}.
Arguments hideAlert {ReactNode StyleProp}.
Arguments OpShowAlert {ReactNode StyleProp}.
Arguments OpHideAlert {ReactNode StyleProp}.
Arguments step {ReactNode StyleProp}.
Arguments run {ReactNode StyleProp}.
Arguments last_shown {ReactNode StyleProp}.
Arguments ends_with_show {ReactNode StyleProp}.

End Alert.

(** ** The components *)

Module Ui.

Local Open Scope string_scope.

(** The fields of [theme.colors] that the components read. *)
Record Colors : Type := mkColors {
  background : string;
  backgroundVariant : string;
  backgroundDisabled : string;
  onBackground : string;
  onBackgroundVariant : string;
  onBackgroundDisabled : string;
  primary : string;
  secondary : string;
  tertiary : string;
  success : string;
  error : string;
  elevatedPrimary : string;
  elevatedSecondary : string;
  elevatedTertiary : string;
  elevatedSuccess : string;
  elevatedError : string;
  onPrimary : string;
  onSecondary : string;
  onTertiary : string;
  onSuccess : string;
  onError : string
}.

(** A palette for examples, each colour named after its field. *)
Definition named_colors : Colors :=
  mkColors "background" "backgroundVariant" "backgroundDisabled"
    "onBackground" "onBackgroundVariant" "onBackgroundDisabled"
    "primary" "secondary" "tertiary" "success" "error"
    "elevatedPrimary" "elevatedSecondary" "elevatedTertiary"
    "elevatedSuccess" "elevatedError"
    "onPrimary" "onSecondary" "onTertiary" "onSuccess" "onError".

(** Truthiness of an optional string: undefined and the empty string are
    falsy. *)
Definition truthy_string (s : option string) : bool :=
  match s with
  | Some s => negb (String.eqb s EmptyString)
  | None => false
  end.

End Ui.

(** *** Button: the colours *)

Module Button.
Import Ui.

Local Open Scope string_scope.

Inductive Variant : Type := primary | secondary | tertiary | success | error.

Section Colours.

(** [theme.colors], and the props the colours depend on.  [disabled] is
    true for a truthy prop; [variant] is [None] when the prop is omitted. *)
Variable colors : Colors.
Variables (disabled : bool) (initialColor initialTextColor : option string).
Variables (outlined elevated : bool) (variant : option Variant).

(** Lines 296 to 331. *)
Definition color : string :=
  if disabled then backgroundDisabled colors
  else if truthy_string initialColor then default EmptyString initialColor
  else if outlined && negb elevated then "transparent"
  else if negb elevated then
    match variant with
    | Some success => Ui.success colors
    | Some error => Ui.error colors
    | Some primary => Ui.primary colors
    | Some secondary => Ui.secondary colors
    | Some tertiary => Ui.tertiary colors
    | None => Ui.primary colors
    end
  else
    match variant with
    | Some success => elevatedSuccess colors
    | Some error => elevatedError colors
    | Some primary => elevatedPrimary colors
    | Some secondary => elevatedSecondary colors
    | Some tertiary => elevatedTertiary colors
    | None => elevatedPrimary colors
    end.

(** Lines 334 to 367. *)
Definition textColor : string :=
  if disabled then onBackgroundDisabled colors
  else if truthy_string initialTextColor then
    default EmptyString initialTextColor
  else if outlined || elevated then
    match variant with
    | Some success => Ui.success colors
    | Some error => Ui.error colors
    | Some primary => Ui.primary colors
    | Some secondary => Ui.secondary colors
    | Some tertiary => Ui.tertiary colors
    | None => Ui.primary colors
    end
  else
    match variant with
    | Some success => onSuccess colors
    | Some error => onError colors
    | Some primary => onPrimary colors
    | Some secondary => onSecondary colors
    | Some tertiary => onTertiary colors
    | None => onPrimary colors
    end.

(** Lines 370 to 385. *)
Definition borderColor : string :=
  match variant with
  | Some success => Ui.success colors
  | Some error => Ui.error colors
  | Some primary => Ui.primary colors
  | Some secondary => Ui.secondary colors
  | Some tertiary => Ui.tertiary colors
  | None => Ui.primary colors
  end.

End Colours.

End Button.

(** *** SegmentedControl: the tabs *)

Module SegmentedControl.
Import Ui.

Local Open Scope string_scope.

Section Tabs.

(** Lengths such as [height / 2] are of a type of numbers with a zero;
    widths are the literals 0 and 1. *)
Variable Number : Type.
Variable zero : Number.

(** [tabBorderStyle], lines 133 to 139. *)
Record TabBorder : Type := mkTabBorder {
  borderRightWidth : Z;
  borderTopLeftRadius : Number;
  borderBottomLeftRadius : Number;
  borderTopRightRadius : Number;
  borderBottomRightRadius : Number
}.

(** What the callback of [values.map] computes for one tab, lines 127 to
    142, before the rendered content and the style props of the caller
    come in. *)
Record Tab : Type := mkTab {
  key : nat;
  isSelected : bool;
  border : TabBorder;
  backgroundColor : string;
  contentColor : string;
  tabBorderColor : string;
  tabDisabled : bool
}.

Variable colors : Colors.
Variable disabled : bool.

(** The object [colors], lines 108 to 119. *)
Definition selectedContent : string :=
  if disabled then onBackgroundDisabled colors else primary colors.
Definition unselectedContent : string :=
  if disabled then onBackgroundDisabled colors else onBackground colors.
Definition borderOf : string :=
  if disabled then onBackgroundDisabled colors else primary colors.
Definition activeTab : string :=
  if disabled then backgroundDisabled colors else elevatedPrimary colors.

(** [selectedIndices] is an array of numbers, here integers; [length] is
    [values.length]. *)
Definition tab (borderRadius : Number) (selectedIndices : list Z)
    (length index : nat) : Tab :=
  let isSelected := bool_decide (Z.of_nat index ∈ selectedIndices) in
  let isFirstTab := (Z.of_nat index =? 0)%Z in
  let isLastTab := (Z.of_nat index =? Z.of_nat length - 1)%Z in
  mkTab index isSelected
    (mkTabBorder (if isLastTab then 1 else 0)
       (if isFirstTab then borderRadius else zero)
       (if isFirstTab then borderRadius else zero)
       (if isLastTab then borderRadius else zero)
       (if isLastTab then borderRadius else zero))
    (if isSelected then activeTab else "transparent")
    (if isSelected then selectedContent else unselectedContent)
    borderOf disabled.

(** [values.map((valueElement, index) => ...)] for an array [values] of
    some type of elements. *)
Definition tabs {Element : Type} (borderRadius : Number)
    (selectedIndices : list Z) (values : list Element) : list Tab :=
  imap (fun index _ => tab borderRadius selectedIndices (length values) index)
    values.

End Tabs.

Arguments mkTabBorder {Number}.
Arguments borderRightWidth {Number}.
Arguments borderTopLeftRadius {Number}.
Arguments borderBottomLeftRadius {Number}.
Arguments borderTopRightRadius {Number}.
Arguments borderBottomRightRadius {Number}.
Arguments mkTab {Number}.
Arguments key {Number}.
Arguments isSelected {Number}.
Arguments border {Number}.
Arguments backgroundColor {Number}.
Arguments contentColor {Number}.
Arguments tabBorderColor {Number}.
Arguments tabDisabled {Number}.
Arguments tab {Number}.
Arguments tabs {Number} zero colors disabled {Element}.

End SegmentedControl.

(** *** TextInput: focus and the bottom row *)

Module TextInput.
Import Ui.

(** Lines 296 to 298: whether the row under the field is rendered.  The
    optional boolean props are [false] when omitted, apart from
    [retainErrorMessageSpace], whose default is [true]. *)
Definition bottomRendered (error : bool) (errorMessage : option string)
    (disabled counter retainErrorMessageSpace : bool) : bool :=
  (error && truthy_string errorMessage && negb disabled)
  || (counter && negb disabled)
  || (retainErrorMessageSpace && (negb error || negb (truthy_string errorMessage))).

(** Line 300: whether the row holds the error message. *)
Definition errorShown (error : bool) (errorMessage : option string)
    (disabled : bool) : bool :=
  error && truthy_string errorMessage && negb disabled.

(** Line 307: whether the row holds the counter. *)
Definition counterShown (counter disabled : bool) : bool :=
  counter && negb disabled.

(** The two events of the field, each with the value the [disabled] prop
    has when it arrives. *)
Inductive Event : Type :=
| Focus (disabled : bool)
| Blur (disabled : bool).

(** A call of one of the callbacks [onFocus] and [onBlur] of the props. *)
Inductive Callback : Type := OnFocus | OnBlur.

(** [isFocused] is the [useState] cell; [forwarded] are the calls that
    reach the callbacks [onFocus] and [onBlur] when the props have them. *)
Record State : Type := mkState {
  isFocused : bool;
  forwarded : list Callback
}.

Definition initial : State := mkState false [].

(** Lines 115 to 123. *)
Definition handleFocus (disabled : bool) (s : State) : State :=
  if negb disabled then mkState true (forwarded s ++ [OnFocus]) else s.

(** Lines 125 to 131. *)
Definition handleBlur (s : State) : State :=
  mkState false (forwarded s ++ [OnBlur]).

Definition step (s : State) (e : Event) : State :=
  match e with
  | Focus disabled => handleFocus disabled s
  | Blur _ => handleBlur s
  end.

Definition run (events : list Event) (s : State) : State :=
  fold_left step events s.

(** The events that get through: every blur, and the focus events that
    arrive while the field is enabled. *)
Definition effective (e : Event) : bool :=
  match e with
  | Focus disabled => negb disabled
  | Blur _ => true
  end.

Definition callback_of (e : Event) : Callback :=
  match e with
  | Focus _ => OnFocus
  | Blur _ => OnBlur
  end.

End TextInput.

(** * Properties of the toast provider *)

Module ToastFacts.
Import Toast.

Section Lifecycle.

Context {ToastProps : Type}.
Implicit Types (s : State ToastProps) (p : ShowToastParams ToastProps).

Lemma clearPending_fields s :
  currentToast (clearPending s) = currentToast s ∧
  nextIdRef (clearPending s) = nextIdRef s ∧
  nextHandle (clearPending s) = nextHandle s.
Proof.
  unfold clearPending.
  destruct (timeoutRef s) as [h|]; [destruct (truthy h)|]; done.
Qed.

(** Under the invariant, clearing leaves no timer and no handle behind. *)
Lemma clearPending_timers s :
  inv s → timers (clearPending s) = [] ∧ timeoutRef (clearPending s) = None.
Proof.
  intros (Hpos & Href & Ht). unfold clearPending.
  destruct (timeoutRef s) as [h|] eqn:Hr.
  - specialize (Href h eq_refl). unfold truthy.
    destruct (Z.eqb_spec h 0) as [->|_]; [lia|]. simpl. split; [|done].
    destruct Ht as [-> | (h' & d & -> & [= ->])]; [done|].
    rewrite filter_cons_False; [done|]. simpl. tauto.
  - destruct Ht as [Hnil | (h' & d & _ & ?)]; done.
Qed.

Lemma inv_initial : inv (@initial ToastProps).
Proof. split; [simpl; lia | split; [done | by left]]. Qed.

Lemma showToast_timers s p :
  inv s →
  timers (showToast p s) =
    match timer_delay (default (Millis 3000) (duration p)) with
    | Some n => [mkTimer (nextHandle s) n]
    | None => []
    end ∧
  timeoutRef (showToast p s) =
    match timer_delay (default (Millis 3000) (duration p)) with
    | Some n => Some (nextHandle s)
    | None => None
    end.
Proof.
  intros Hinv. unfold showToast.
  destruct (clearPending_timers s Hinv) as [Hc Hr].
  destruct (clearPending_fields s) as (_ & _ & Hn).
  destruct (timer_delay _); simpl; rewrite ?Hc, ?Hn, ?Hr; done.
Qed.

Lemma inv_showToast s p : inv s → inv (showToast p s).
Proof.
  intros Hinv. destruct (showToast_timers s p Hinv) as [Ht Hr].
  destruct Hinv as [Hpos _].
  destruct (clearPending_fields s) as (_ & _ & Hn).
  assert (nextHandle s ≤ nextHandle (showToast p s) ∧
          (is_Some (timer_delay (default (Millis 3000) (duration p))) →
           nextHandle s < nextHandle (showToast p s))) as [Hle Hlt].
  { unfold showToast. destruct (timer_delay _); simpl; rewrite Hn.
    - split; [lia | intros _; lia].
    - split; [lia | by intros [? ?]]. }
  split; [lia|]. rewrite Ht, Hr.
  destruct (timer_delay _) as [n|]; split; try done.
  - intros h [= <-]. split; [lia | by apply Hlt].
  - right. by exists (nextHandle s), n.
  - by left.
Qed.

Lemma inv_hideToast s : inv s → inv (hideToast s).
Proof.
  intros Hinv. destruct (clearPending_timers s Hinv) as [Hc Hr].
  destruct (clearPending_fields s) as (_ & _ & Hn).
  destruct Hinv as [Hpos _]. unfold hideToast, inv. simpl.
  rewrite Hc, Hr, Hn. split; [lia | split; [done | by left]].
Qed.

Lemma inv_fire s h : inv s → inv (fire h s).
Proof.
  intros Hinv. unfold fire. case_bool_decide as Hin; [|done].
  apply inv_hideToast.
  destruct Hinv as (Hpos & Href & Ht). split; [done|]. split; [done|]. simpl.
  destruct Ht as [Hnil | (h' & d & Ht & Hr)].
  - left. by rewrite Hnil.
  - rewrite Ht in *. simpl in Hin. apply list_elem_of_singleton in Hin as ->.
    left. rewrite filter_cons_False; [done|]. simpl. tauto.
Qed.

Lemma inv_step s o : inv s → inv (step s o).
Proof.
  destruct o; simpl; auto using inv_showToast, inv_hideToast, inv_fire.
Qed.

Lemma inv_run ops s : inv s → inv (run ops s).
Proof.
  revert s. induction ops as [|o ops IH]; intros s Hs; [done|].
  simpl. apply IH, inv_step, Hs.
Qed.

Lemma inv_reachable ops : inv (run ops (@initial ToastProps)).
Proof. apply inv_run, inv_initial. Qed.

Lemma inv_at_most_one s : inv s → (length (timers s) ≤ 1)%nat.
Proof.
  intros (_ & _ & [-> | (h & d & -> & _)]); simpl; lia.
Qed.

(** A timer that is not pending cannot fire. *)
Lemma fire_idle s h : timers s = [] → fire h s = s.
Proof.
  intros Hnil. unfold fire. by rewrite Hnil.
Qed.

Lemma run_fire_idle s hs : timers s = [] → run (OpFire <$> hs) s = s.
Proof.
  intros Hnil. induction hs as [|h hs IH]; [done|].
  simpl. by rewrite fire_idle.
Qed.

Lemma showToast_current s p :
  currentToast (showToast p s) = Some (mkToastItem (nextIdRef s) (rest p)).
Proof.
  unfold showToast. destruct (clearPending_fields s) as (_ & -> & _).
  by destruct (timer_delay _).
Qed.

(** C1 (as amended): [showToast] puts the new toast, under the id read
    from [nextIdRef], in the place of whatever was displayed.  The toast
    displayed before has no influence on the resulting state, so it is kept
    nowhere, and once the new toast is hidden nothing is displayed. *)
Theorem showToast_replaces_current s p :
  currentToast (showToast p s) = Some (mkToastItem (nextIdRef s) (rest p)) ∧
  (∀ t, showToast p (setCurrentToast t s) = showToast p s) ∧
  currentToast (hideToast (showToast p s)) = None.
Proof.
  split; [|split].
  - apply showToast_current.
  - intros t. unfold showToast, clearPending. simpl.
    destruct (timeoutRef s) as [h|]; [destruct (truthy h)|]; done.
  - done.
Qed.

(** C2: in every state the provider can reach, at most one auto-dismiss
    timer is pending and [timeoutRef] points to it; [showToast] cancels it
    before starting its own timer, [hideToast] cancels it before hiding, and
    every operation (show, hide, a timer firing) preserves the invariant. *)
Theorem at_most_one_pending_timer (ops : list (Op ToastProps)) :
  let s := run ops initial in
  (length (timers s) ≤ 1)%nat ∧
  (∀ t, t ∈ timers s → timeoutRef s = Some (handle t)) ∧
  timers (clearPending s) = [] ∧
  (∀ p t, t ∈ timers (showToast p s) →
          (t ∉ timers s) ∧ timers (showToast p s) = [t] ∧
          timeoutRef (showToast p s) = Some (handle t)) ∧
  timers (hideToast s) = [] ∧
  (∀ o, inv (step s o) ∧ (length (timers (step s o)) ≤ 1)%nat).
Proof.
  intros s. pose proof (inv_reachable ops) as Hinv. fold s in Hinv.
  split; [by apply inv_at_most_one|].
  split.
  { intros t Ht. destruct Hinv as (_ & _ & [Hnil | (h & d & Heq & Hr)]).
    - rewrite Hnil in Ht. by apply elem_of_nil in Ht.
    - rewrite Heq in Ht. by apply list_elem_of_singleton in Ht as ->. }
  split; [by apply clearPending_timers|].
  split.
  { intros p t Ht. destruct (showToast_timers s p Hinv) as [Hts Hr].
    rewrite Hts in Ht. rewrite Hts, Hr.
    destruct (timer_delay _) as [n|]; [|by apply elem_of_nil in Ht].
    apply list_elem_of_singleton in Ht as ->. split; [|done].
    intros Hold. destruct Hinv as (_ & Href & [Hnil | (h & d & Heq & Hrs)]).
    - rewrite Hnil in Hold. by apply elem_of_nil in Hold.
    - rewrite Heq in Hold. apply list_elem_of_singleton in Hold as [= <- _].
      specialize (Href _ Hrs). lia. }
  split.
  { unfold hideToast. simpl. by apply clearPending_timers. }
  intros o. pose proof (inv_step s o Hinv) as Ho.
  split; [done | by apply inv_at_most_one].
Qed.

(** C7: on a reachable state, [showToast] with a finite nonzero duration
    [d] starts exactly one timer, of delay [d], and when that timer fires
    the current toast becomes null; an omitted duration is 3000; with
    duration ["infinite"] no timer is started, no timer event can change the
    state, and the toast stays until [hideToast] sets it to null. *)
Theorem timer_based_dismissal (ops : list (Op ToastProps)) (tp : ToastProps) :
  let s := run ops initial in
  (∀ d, d ≠ 0 →
     let s' := showToast (mkParams (Some (Millis d)) tp) s in
     let h := nextHandle s in
     currentToast s' = Some (mkToastItem (nextIdRef s) tp) ∧
     timers s' = [mkTimer h d] ∧ timeoutRef s' = Some h ∧
     currentToast (fire h s') = None ∧ timers (fire h s') = []) ∧
  showToast (mkParams None tp) s = showToast (mkParams (Some (Millis 3000)) tp) s ∧
  (let s' := showToast (mkParams (Some Infinite) tp) s in
   currentToast s' = Some (mkToastItem (nextIdRef s) tp) ∧
   timers s' = [] ∧ timeoutRef s' = None ∧
   (∀ hs, run (OpFire <$> hs) s' = s') ∧
   currentToast (hideToast s') = None).
Proof.
  intros s. pose proof (inv_reachable ops) as Hinv. fold s in Hinv.
  split; [|split; [done|]].
  - intros d Hd s' h.
    destruct (showToast_timers s (mkParams (Some (Millis d)) tp) Hinv)
      as [Hts Hr].
    pose proof (showToast_current s (mkParams (Some (Millis d)) tp)) as Hcur.
    simpl in Hts, Hr. unfold truthy in Hts, Hr.
    destruct (Z.eqb_spec d 0) as [|_]; [done|]. simpl in Hts, Hr.
    fold s' in Hts, Hr, Hcur. fold h in Hts, Hr.
    assert (inv (fire h s')) as Hf by apply inv_fire, inv_showToast, Hinv.
    repeat split; try done.
    + unfold fire. rewrite Hts. simpl.
      rewrite bool_decide_eq_true_2; [done | by apply list_elem_of_singleton].
    + unfold fire. rewrite Hts. simpl.
      rewrite bool_decide_eq_true_2; [| by apply list_elem_of_singleton].
      unfold hideToast. simpl.
      rewrite filter_cons_False; [|simpl; tauto]. simpl.
      unfold clearPending. simpl.
      destruct (timeoutRef s') as [h'|]; [destruct (truthy h')|]; done.
  - intros s'.
    destruct (showToast_timers s (mkParams (Some Infinite) tp) Hinv)
      as [Hts Hr].
    pose proof (showToast_current s (mkParams (Some Infinite) tp)) as Hcur.
    simpl in Hts, Hr. fold s' in Hts, Hr, Hcur.
    repeat split; try done.
    intros hs. by apply run_fire_idle.
Qed.

(** C9: on a reachable state, [showToast] with duration 0 behaves as with
    ["infinite"]: no timer is started, no timer event can change the state,
    and the toast stays until [hideToast] sets it to null. *)
Theorem zero_duration_starts_no_timer (ops : list (Op ToastProps)) (tp : ToastProps) :
  let s := run ops initial in
  let s' := showToast (mkParams (Some (Millis 0)) tp) s in
  timer_delay (Millis 0) = None ∧
  s' = showToast (mkParams (Some Infinite) tp) s ∧
  currentToast s' = Some (mkToastItem (nextIdRef s) tp) ∧
  timers s' = [] ∧ timeoutRef s' = None ∧
  (∀ hs, run (OpFire <$> hs) s' = s') ∧
  currentToast (hideToast s') = None.
Proof.
  intros s s'. pose proof (inv_reachable ops) as Hinv. fold s in Hinv.
  destruct (showToast_timers s (mkParams (Some (Millis 0)) tp) Hinv)
    as [Hts Hr].
  pose proof (showToast_current s (mkParams (Some (Millis 0)) tp)) as Hcur.
  simpl in Hts, Hr. fold s' in Hts, Hr, Hcur.
  repeat split; try done.
  intros hs. by apply run_fire_idle.
Qed.

End Lifecycle.

(** C1 (as stated) fails: with a first toast displayed, showing a second
    one replaces it, and hiding the second leaves nothing displayed, so the
    first was neither kept on screen nor queued. *)
Lemma showToast_keeps_current_counterexample :
  let first := mkParams None "first"%string in
  let second := mkParams None "second"%string in
  let s := showToast first initial in
  currentToast s = Some (mkToastItem 0 "first"%string) ∧
  currentToast (showToast second s) = Some (mkToastItem 1 "second"%string) ∧
  currentToast (showToast second s) ≠ currentToast s ∧
  currentToast (hideToast (showToast second s)) = None.
Proof. repeat split; try reflexivity. discriminate. Qed.

(** Two toasts shown in a row leave one timer pending. *)
Lemma at_most_one_pending_timer_witness :
  (length
     (timers
        (run [OpShow (mkParams None "first"%string);
              OpShow (mkParams (Some (Millis 500)) "second"%string)]
           initial)) ≤ 1)%nat.
Proof.
  exact (proj1 (at_most_one_pending_timer
                  [OpShow (mkParams None "first"%string);
                   OpShow (mkParams (Some (Millis 500)) "second"%string)])).
Defined.

(** A toast shown for 1500 ms on a fresh provider. *)
Lemma timer_based_dismissal_witness :
  timers (showToast (mkParams (Some (Millis 1500)) "saved"%string) initial)
    = [mkTimer 1 1500] ∧
  currentToast
    (fire 1 (showToast (mkParams (Some (Millis 1500)) "saved"%string) initial))
    = None.
Proof.
  destruct (timer_based_dismissal [] "saved"%string) as [H _].
  destruct (H 1500 ltac:(lia)) as (_ & Ht & _ & Hf & _).
  split; [exact Ht | exact Hf].
Defined.

End ToastFacts.

(** * Properties of the theme provider *)

Module ThemeFacts.
Import Theme.

Local Open Scope string_scope.

Lemma accept_stored_mode m : accept_stored (mode_string m) = Some m.
Proof. by destruct m. Qed.

Lemma accept_stored_inv v m : accept_stored v = Some m → v = mode_string m.
Proof.
  unfold accept_stored.
  destruct (String.eqb_spec v "light") as [->|_]; [by intros [= <-]|].
  destruct (String.eqb_spec v "dark") as [->|_]; [by intros [= <-]|].
  destruct (String.eqb_spec v "system") as [->|_]; [by intros [= <-]|].
  done.
Qed.

Lemma save_effect_fields s :
  themeMode (save_effect s) = themeMode s ∧
  loading (save_effect s) = loading s ∧
  failing (storage (save_effect s)) = failing (storage s).
Proof.
  unfold save_effect, setItem. by destruct (failing (storage s)) eqn:E.
Qed.

Lemma save_effect_saved s :
  failing (storage s) = false → saved (save_effect s).
Proof.
  intros Hok. unfold saved, save_effect, setItem. rewrite Hok. simpl.
  apply lookup_insert_eq.
Qed.

Lemma setThemeMode_fields m s :
  themeMode (setThemeMode m s) = m ∧
  loading (setThemeMode m s) = loading s ∧
  failing (storage (setThemeMode m s)) = failing (storage s).
Proof.
  unfold setThemeMode. case_decide as Hm; [done|].
  by destruct (save_effect_fields (mkState m (storage s) (loading s) (errors s)))
    as (-> & -> & ->).
Qed.

Lemma setThemeMode_saved m s :
  failing (storage s) = false → saved s → saved (setThemeMode m s).
Proof.
  intros Hok Hs. unfold setThemeMode. case_decide as Hm; [done|].
  by apply save_effect_saved.
Qed.

(** What the load continuation does to [themeMode]. *)
Lemma load_resolved_mode s :
  themeMode (load_resolved s) =
    match loading s with
    | Some (Resolved (Some stored)) =>
        default (themeMode s) (accept_stored stored)
    | _ => themeMode s
    end.
Proof.
  unfold load_resolved.
  destruct (loading s) as [[e|[stored|]]|]; try done.
  destruct (accept_stored stored) as [m|]; [|done].
  apply setThemeMode_fields.
Qed.

Lemma load_resolved_saved s :
  failing (storage s) = false → saved s →
  failing (storage (load_resolved s)) = false ∧ saved (load_resolved s).
Proof.
  intros Hok Hs. unfold load_resolved.
  destruct (loading s) as [[e|[stored|]]|]; try done.
  destruct (accept_stored stored) as [m|]; [|done].
  split.
  - by destruct (setThemeMode_fields m
                   (mkState (themeMode s) (storage s) None (errors s)))
      as (_ & _ & ->).
  - by apply setThemeMode_saved.
Qed.

Lemma mount_fields st :
  themeMode (mount st) = system ∧
  loading (mount st) = Some (getItem THEME_MODE_KEY st) ∧
  failing (storage (mount st)) = failing st.
Proof. unfold mount. by apply save_effect_fields. Qed.

Lemma mount_saved st : failing st = false → saved (mount st).
Proof. intros Hok. unfold mount. by apply save_effect_saved. Qed.

Lemma run_saved ops s :
  failing (storage s) = false → saved s →
  failing (storage (run ops s)) = false ∧ saved (run ops s).
Proof.
  revert s. induction ops as [|o ops IH]; intros s Hok Hs; [done|].
  simpl. destruct o as [m|]; simpl.
  - apply IH; [|by apply setThemeMode_saved].
    by destruct (setThemeMode_fields m s) as (_ & _ & ->).
  - by apply IH; apply load_resolved_saved.
Qed.

Lemma run_sets_loading ms s :
  loading (run (OpSetThemeMode <$> ms) s) = loading s.
Proof.
  revert s. induction ms as [|m ms IH]; intros s; [done|].
  simpl. rewrite IH. apply setThemeMode_fields.
Qed.

(** C4: after a mount on a working storage and any later activity,
    [setThemeMode m] leaves [m] stored under ["themeMode"]; a provider
    mounted afterwards on that storage reads it back and ends with
    [themeMode = m], whatever modes were set while the read was in flight,
    and the stored value is [m] again once it has settled. *)
Theorem theme_mode_round_trip (st0 : AsyncStorage) (ops : list Op) (m : ThemeMode) :
  failing st0 = false →
  let s := setThemeMode m (run ops (mount st0)) in
  THEME_MODE_KEY = "themeMode" ∧
  themeMode s = m ∧
  items (storage s) !! THEME_MODE_KEY = Some (mode_string m) ∧
  getItem THEME_MODE_KEY (storage s) = Resolved (Some (mode_string m)) ∧
  (∀ ms, themeMode
           (load_resolved (run (OpSetThemeMode <$> ms) (mount (storage s))))
         = m) ∧
  items (storage (load_resolved (mount (storage s)))) !! THEME_MODE_KEY
    = Some (mode_string m).
Proof.
  intros Hok s.
  destruct (mount_fields st0) as (_ & _ & Hf). rewrite Hok in Hf.
  destruct (run_saved ops (mount st0) Hf (mount_saved st0 Hok)) as [Hrf Hrs].
  destruct (setThemeMode_fields m (run ops (mount st0))) as (Hm & _ & Hsf).
  fold s in Hm, Hsf. rewrite Hrf in Hsf.
  pose proof (setThemeMode_saved m _ Hrf Hrs) as Hsaved. fold s in Hsaved.
  unfold saved in Hsaved. rewrite Hm in Hsaved.
  assert (getItem THEME_MODE_KEY (storage s) = Resolved (Some (mode_string m)))
    as Hget by (unfold getItem; by rewrite Hsf, Hsaved).
  destruct (mount_fields (storage s)) as (Hmm & Hml & Hmf). rewrite Hsf in Hmf.
  repeat split; try done.
  - intros ms. rewrite load_resolved_mode, run_sets_loading, Hml, Hget.
    by rewrite accept_stored_mode.
  - destruct (load_resolved_saved (mount (storage s)) Hmf
                (mount_saved _ Hsf)) as [_ Hls].
    unfold saved in Hls. rewrite Hls. f_equal. f_equal.
    rewrite load_resolved_mode, Hml, Hget, accept_stored_mode. done.
Qed.

(** Setting dark mode on a first launch, then mounting again. *)
Lemma theme_mode_round_trip_witness :
  failing (mkStorage ∅ false) = false ∧
  themeMode
    (load_resolved
       (mount (storage (setThemeMode dark (mount (mkStorage ∅ false))))))
  = dark.
Proof.
  split; [reflexivity|].
  destruct (theme_mode_round_trip (mkStorage ∅ false) [] dark eq_refl)
    as (_ & _ & _ & _ & H & _).
  exact (H []).
Defined.

(** C10: the load on mount applies the stored value exactly when it is
    one of the three mode strings; for any other stored string, for no
    stored value and for a rejected read, [themeMode] is left as it is,
    which on a fresh mount is the default ["system"]. *)
Theorem load_applies_only_valid_modes (st : AsyncStorage) :
  (∀ v m, accept_stored v = Some m ↔ v = mode_string m) ∧
  themeMode (mount st) = system ∧
  themeMode (load_resolved (mount st)) =
    match getItem THEME_MODE_KEY st with
    | Resolved (Some stored) =>
        if bool_decide (stored ∈ ["light"; "dark"; "system"])
        then default system (accept_stored stored) else system
    | Resolved None => system
    | Rejected _ => system
    end ∧
  (∀ m, getItem THEME_MODE_KEY st = Resolved (Some (mode_string m)) →
        themeMode (load_resolved (mount st)) = m) ∧
  (∀ s, themeMode (load_resolved s) =
        match loading s with
        | Some (Resolved (Some stored)) =>
            default (themeMode s) (accept_stored stored)
        | _ => themeMode s
        end).
Proof.
  destruct (mount_fields st) as (Hm & Hl & _).
  assert (∀ v m, accept_stored v = Some m ↔ v = mode_string m) as Hacc.
  { intros v m. split; [apply accept_stored_inv|].
    intros ->. apply accept_stored_mode. }
  split; [done|]. split; [done|]. split; [|split].
  - rewrite load_resolved_mode, Hl, Hm.
    destruct (getItem THEME_MODE_KEY st) as [e|[stored|]]; try done.
    case_bool_decide as Hin; [done|].
    destruct (accept_stored stored) as [m|] eqn:E; [|done].
    apply accept_stored_inv in E as ->. exfalso. apply Hin.
    destruct m; apply list_elem_of_In; simpl; tauto.
  - intros m Hget. rewrite load_resolved_mode, Hl, Hget.
    by rewrite accept_stored_mode.
  - apply load_resolved_mode.
Qed.

(** A stored dark mode read back on a working storage. *)
Lemma load_applies_only_valid_modes_witness :
  themeMode
    (load_resolved (mount (mkStorage {[ "themeMode" := "dark" ]} false)))
  = dark.
Proof.
  destruct (load_applies_only_valid_modes
              (mkStorage {[ "themeMode" := "dark" ]} false))
    as (_ & _ & _ & H & _).
  exact (H dark eq_refl).
Defined.

Section Propagation.

Context {ThemeType : Type} (blueLight blueDark : ThemeType).

(** C5: [isDark] holds exactly for mode ["dark"], or mode ["system"] with a
    dark system colour scheme; the provided theme is [blueDark] when
    [isDark] holds and [blueLight] otherwise, and, the two palettes being
    different objects, it is [blueDark] only when [isDark] holds. *)
Theorem theme_propagation (mode : ThemeMode) (scheme : option ColorScheme) :
  (isDark mode scheme = true ↔
   mode = dark ∨ (mode = system ∧ scheme = Some SchemeDark)) ∧
  (isDark mode scheme = true → theme blueLight blueDark mode scheme = blueDark) ∧
  (isDark mode scheme = false → theme blueLight blueDark mode scheme = blueLight) ∧
  (blueLight ≠ blueDark →
   (theme blueLight blueDark mode scheme = blueDark ↔ isDark mode scheme = true)).
Proof.
  split; [|split; [|split]].
  - destruct mode, scheme as [[]|]; simpl; split; try done;
      try (intros [|[]]; done); auto.
  - unfold theme. by intros ->.
  - unfold theme. by intros ->.
  - intros Hne. unfold theme. destruct (isDark mode scheme); split; done.
Qed.

End Propagation.

(** The system mode on a device in dark mode, with two palettes told apart
    by their names. *)
Lemma theme_propagation_witness :
  theme "blueLight" "blueDark" system (Some SchemeDark) = "blueDark" ↔
  isDark system (Some SchemeDark) = true.
Proof.
  destruct (theme_propagation "blueLight" "blueDark" system (Some SchemeDark))
    as (_ & _ & _ & H).
  apply H. discriminate.
Defined.

End ThemeFacts.

(** * Properties of the command-line tool *)

Module CliFacts.
Import Cli.

Local Open Scope string_scope.
Local Open Scope list_scope.

Local Arguments target_dirs : simpl never.
Local Arguments dir_chain : simpl never.
Local Arguments log_items : simpl never.

Section Process.

Variable inspect : JsError → string.
Variables dirname cwd : string.

Lemma follows_refl w : follows inspect w w.
Proof.
  split; [done | done | done |]. exists []. split; [by rewrite app_nil_r|].
  intros l Hl. by apply elem_of_nil in Hl.
Qed.

Lemma follows_trans w1 w2 w3 :
  follows inspect w1 w2 → follows inspect w2 w3 → follows inspect w1 w3.
Proof.
  intros [Hf1 Hd1 Hu1 (o1 & Hc1 & He1)] [Hf2 Hd2 Hu2 (o2 & Hc2 & He2)].
  split; [by etrans | by etrans | congruence |].
  exists (o1 ++ o2). split; [by rewrite Hc2, Hc1, app_assoc|].
  intros l [?|?]%elem_of_app; auto.
Qed.

Lemma follows_log line w : follows inspect w (log line w).
Proof.
  split; [done | done | done |]. exists [(Out, line)]. split; [done|].
  intros l Hl. by apply list_elem_of_singleton in Hl.
Qed.

Lemma follows_error line w :
  error_line inspect line → follows inspect w (error line w).
Proof.
  intros He. split; [done | done | done |]. exists [(Err, line)].
  split; [done|].
  intros l Hl. by apply list_elem_of_singleton in Hl as [= ->].
Qed.

Lemma log_items_spec l w :
  log_items l w =
    mkWorld (files w) (dirs w) (rejections w)
      (console w ++ ((fun x => (Out, "  - " +:+ x)) <$> l)).
Proof.
  revert w. induction l as [|x l IH]; intros w; simpl.
  - rewrite app_nil_r. by destruct w.
  - unfold log_items in *. simpl. rewrite IH. simpl.
    by rewrite <- app_assoc.
Qed.

Lemma follows_log_items l w : follows inspect w (log_items l w).
Proof.
  rewrite log_items_spec. split; [done | done | done |]. simpl.
  eexists. split; [done|].
  intros line (x & [=] & _)%list_elem_of_fmap.
Qed.

Lemma pathExists_true p w :
  pathExists p w = true ↔ is_Some (files w !! p) ∨ p ∈ dirs w.
Proof. unfold pathExists. by rewrite bool_decide_eq_true. Qed.

Lemma pathExists_false p w :
  pathExists p w = false ↔ files w !! p = None ∧ p ∉ dirs w.
Proof.
  unfold pathExists. rewrite bool_decide_eq_false, eq_None_not_Some. tauto.
Qed.

Lemma pathExists_file p content w :
  files w !! p = Some content → pathExists p w = true.
Proof. intros H. apply pathExists_true. left. by exists content. Qed.

Lemma pathExists_follows p w w' :
  follows inspect w w' → pathExists p w = true → pathExists p w' = true.
Proof.
  intros [Hf Hd _ _]. rewrite !pathExists_true. intros [[c Hc]|Hin].
  - left. exists c. by eapply lookup_weaken.
  - right. by apply Hd.
Qed.

Lemma printed_log st line w : printed w (print st line w) (st, line).
Proof.
  unfold printed, print. simpl. rewrite drop_app_length.
  by apply list_elem_of_singleton.
Qed.

Lemma printed_follows_r w1 w2 w3 x :
  printed w1 w2 x → follows inspect w2 w3 → printed w1 w3 x.
Proof.
  unfold printed. intros Hx [_ _ _ (out & -> & _)].
  rewrite drop_app. apply elem_of_app. by left.
Qed.

Lemma printed_follows_l w1 w2 w3 x :
  follows inspect w1 w2 → printed w2 w3 x → printed w1 w3 x.
Proof.
  unfold printed. intros [_ _ _ (out & -> & _)] Hx.
  rewrite length_app, <- drop_drop in Hx. by eapply subseteq_drop.
Qed.

Lemma printed_error_line w w' l :
  follows inspect w w' → printed w w' (Err, l) → error_line inspect l.
Proof.
  intros [_ _ _ (out & Hc & He)]. unfold printed.
  rewrite Hc, drop_app_length. apply He.
Qed.

Lemma valid_not_empty n : isValidComponent n = true → n ≠ EmptyString.
Proof. by intros Hv ->. Qed.

Lemma valid_not_all n : isValidComponent n = true → n ≠ "all".
Proof. by intros Hv ->. Qed.

Lemma allItems_valid item : item ∈ allItems → isValidComponent item = true.
Proof.
  intros Hin. apply list_elem_of_In in Hin. simpl in Hin.
  repeat (destruct Hin as [<-|Hin]; [reflexivity|]). done.
Qed.

Lemma includes_true l n : includes l n = true ↔ n ∈ l.
Proof. unfold includes. apply bool_decide_eq_true. Qed.

(** *** Every step only adds *)

Lemma follows_mkdirs l w : follows inspect w (mkdirs l w).
Proof.
  split; [done | | done |].
  - simpl. apply union_subseteq_l.
  - exists []. split; [by rewrite app_nil_r|].
    intros x Hx. by apply elem_of_nil in Hx.
Qed.

Lemma follows_ensureDir d tgt w : follows inspect w (world (ensureDir d tgt w)).
Proof.
  unfold ensureDir. destruct (rejections w !! tgt) as [[made e|e]|];
    apply follows_mkdirs.
Qed.

Lemma follows_unwritable w w' :
  follows inspect w w' → unwritable w' = unwritable w.
Proof. intros [_ _ Hr _]. unfold unwritable. by rewrite Hr. Qed.

Lemma failed_line src e : error_line inspect (msg_failed inspect src e).
Proof. right; right; right; left. by exists src, e. Qed.

(** A copy onto a path that holds no file keeps every file there is. *)
Lemma follows_copyFile src tgt w :
  files w !! tgt = None → follows inspect w (copyFile inspect src tgt w).2.
Proof.
  intros Hnone. unfold copyFile.
  pose proof (follows_ensureDir (path_dirname tgt) tgt w) as He.
  assert (files (world (ensureDir (path_dirname tgt) tgt w)) = files w) as Hfiles.
  { unfold ensureDir. by destruct (rejections w !! tgt) as [[made e|e]|]. }
  destruct (ensureDir (path_dirname tgt) tgt w) as [[] w1|e w1];
    cbn [world] in He, Hfiles;
    [|eapply follows_trans; [exact He | apply follows_error, failed_line]].
  destruct (readFile src w1) as [e|content].
  { eapply follows_trans; [exact He | apply follows_error, failed_line]. }
  unfold writeFile. case_bool_decide.
  { eapply follows_trans; [exact He | apply follows_error, failed_line]. }
  assert (follows inspect w1
            (log (msg_created tgt)
               (mkWorld (<[tgt:=content]> (files w1)) (dirs w1) (rejections w1)
                  (console w1)))) as Hw.
  { eapply follows_trans; [|apply follows_log].
    split; simpl; [apply insert_subseteq; by rewrite Hfiles | done | done |].
    exists []. split; [by rewrite app_nil_r|].
    intros l Hl. by apply elem_of_nil in Hl. }
  destruct (rejections w1 !! tgt) as [[made e|e]|]; cbn [snd].
  - by eapply follows_trans.
  - eapply follows_trans; [exact He | apply follows_error, failed_line].
  - by eapply follows_trans.
Qed.

Lemma follows_addRelatedContext pcwd name w :
  includes availableContexts name = true →
  follows inspect w (world (addRelatedContext inspect dirname pcwd name w)).
Proof.
  intros Hin. unfold addRelatedContext, process_cwd. rewrite Hin. simpl.
  destruct pcwd as [d|]; [|apply follows_refl].
  destruct (pathExists _ w) eqn:Hex; [apply follows_log|].
  apply pathExists_false in Hex as [Hnone _].
  pose proof (follows_copyFile (context_source dirname name)
                (context_target d name) w Hnone) as Hc.
  destruct (copyFile _ _ _ w) as [[] w']; simpl in *; [|done].
  eapply follows_trans; [exact Hc | apply follows_log].
Qed.

Lemma follows_place pcwd name w :
  follows inspect w (world (place inspect dirname pcwd name w)).
Proof.
  assert (∀ ctx w1 (r : Result bool),
            follows inspect w w1 →
            includes availableContexts ctx = true →
            follows inspect w
              (world match addRelatedContext inspect dirname pcwd ctx w1 with
                     | Thrown e w2 => Thrown e w2
                     | Returned _ w2 => Returned true w2
                     end)) as Hrel.
  { intros ctx w1 _ Hw1 Hin.
    pose proof (follows_addRelatedContext pcwd ctx w1 Hin) as H.
    destruct (addRelatedContext _ _ _ ctx w1); simpl in *;
      by eapply follows_trans. }
  unfold place, process_cwd.
  destruct (includes availableComponents name).
  { destruct pcwd as [d|]; [|apply follows_refl].
    destruct (pathExists _ w) eqn:Hex; [apply follows_log|].
    apply pathExists_false in Hex as [Hnone _].
    pose proof (follows_copyFile (component_source dirname name)
                  (component_target d name) w Hnone) as Hc.
    destruct (String.eqb name "Toast");
      [by apply (Hrel _ _ (Returned true w))|].
    destruct (String.eqb name "Alert");
      [by apply (Hrel _ _ (Returned true w)) | done]. }
  destruct (includes availableContexts name).
  { destruct pcwd as [d|]; [|apply follows_refl].
    destruct (pathExists _ w) eqn:Hex; [apply follows_log|].
    apply pathExists_false in Hex as [Hnone _].
    by apply follows_copyFile. }
  destruct (includes availableThemes name); [|apply follows_refl].
  destruct pcwd as [d|]; [|apply follows_refl].
  destruct (pathExists _ w) eqn:Hex; [apply follows_log|].
  apply pathExists_false in Hex as [Hnone _].
  apply (Hrel _ _ (Returned true w)); [|done]. by apply follows_copyFile.
Qed.

Lemma follows_announce name w : follows inspect w (announce name w).
Proof.
  unfold announce. destruct (requiredDeps name); [apply follows_log|].
  eapply follows_trans; apply follows_log.
Qed.

Lemma follows_addValid pcwd name w :
  follows inspect w (world (addValid inspect dirname pcwd name w)).
Proof.
  unfold addValid. pose proof (follows_place pcwd name w) as Hp.
  destruct (place _ _ _ name w) as [[] w'|e w']; simpl in *; try done.
  eapply follows_trans; [exact Hp | apply follows_announce].
Qed.

Lemma follows_addNamed pcwd name w :
  follows inspect w (world (addNamed inspect dirname pcwd name w)).
Proof.
  unfold addNamed. destruct (isValidComponent name); cbn [negb];
    [apply follows_addValid|]. cbn [world].
  eapply follows_trans;
    [apply follows_error; right; left; by exists name|].
  eapply follows_trans; [apply follows_log|].
  eapply follows_trans; [apply follows_log_items|].
  eapply follows_trans; [apply follows_log | apply follows_log_items].
Qed.

Lemma follows_addEach pcwd l w :
  follows inspect w (world (addEach inspect dirname pcwd l w)).
Proof.
  revert w. induction l as [|x l IH]; intros w; [apply follows_refl|].
  simpl. pose proof (follows_addNamed pcwd x w) as Hx.
  destruct (addNamed _ _ _ x w) as [[] w'|e w']; simpl in *; [|done].
  eapply follows_trans; [exact Hx | apply IH].
Qed.

Lemma follows_showHelp w : follows inspect w (showHelp w).
Proof. apply follows_log. Qed.

Lemma follows_addComponent pcwd name w :
  follows inspect w (world (addComponent inspect dirname pcwd name w)).
Proof.
  assert (follows inspect w (showHelp (error msg_no_name w))) as Hmissing.
  { eapply follows_trans; [apply follows_error; by left | apply follows_log]. }
  unfold addComponent. destruct name as [n|]; [|done].
  destruct (String.eqb n EmptyString); [done|].
  destruct (String.eqb n "all"); [|apply follows_addNamed].
  pose proof (follows_addEach pcwd allItems w) as Ha.
  destruct (addEach _ _ _ allItems w) as [[] w'|e w']; simpl in *; [|done].
  eapply follows_trans; [exact Ha | apply follows_log].
Qed.

Lemma follows_listComponents w : follows inspect w (listComponents w).
Proof.
  unfold listComponents.
  eapply follows_trans; [apply follows_log|].
  eapply follows_trans; [apply follows_log_items|].
  eapply follows_trans; [apply follows_log | apply follows_log_items].
Qed.

Lemma follows_dispatch pcwd command name w :
  follows inspect w (world (dispatch inspect dirname pcwd command name w)).
Proof.
  assert (follows inspect w
            (showHelp (error (msg_unknown_command command) w))) as Hunknown.
  { eapply follows_trans; [apply follows_error | apply follows_log].
    right; right; left. by exists command. }
  unfold dispatch. destruct command as [c|]; [|done].
  destruct (String.eqb c "add"); [apply follows_addComponent|].
  destruct (String.eqb c "list"); [apply follows_listComponents|].
  destruct (String.eqb c "help"); [apply follows_showHelp | done].
Qed.

Lemma follows_main pcwd command name w :
  follows inspect w (main inspect dirname pcwd command name w).1.
Proof.
  unfold main. pose proof (follows_dispatch pcwd command name w) as Hd.
  destruct (dispatch _ _ _ command name w) as [[] w'|e w']; simpl in *;
    [done|].
  eapply follows_trans; [exact Hd | apply follows_error].
  right; right; right; right. by exists e.
Qed.

(** *** When [process.cwd()] returns *)

Lemma addRelatedContext_returns ctx w :
  ∃ b, addRelatedContext inspect dirname (Some cwd) ctx w
       = Returned b (world (addRelatedContext inspect dirname (Some cwd) ctx w)).
Proof.
  unfold addRelatedContext, process_cwd.
  destruct (negb _); [by eexists|].
  destruct (pathExists _ w); [by eexists|].
  destruct (copyFile _ _ _ w) as [b w']. by eexists.
Qed.

Lemma place_returns n w :
  ∃ b, place inspect dirname (Some cwd) n w
       = Returned b (world (place inspect dirname (Some cwd) n w)).
Proof.
  unfold place, process_cwd.
  destruct (includes availableComponents n).
  { destruct (pathExists _ w); [by eexists|].
    destruct (String.eqb n "Toast").
    { destruct (addRelatedContext_returns "ToastContext"
                  (copyFile inspect (component_source dirname n)
                     (component_target cwd n) w).2) as [b ->].
      by eexists. }
    destruct (String.eqb n "Alert"); [|by eexists].
    destruct (addRelatedContext_returns "AlertContext"
                (copyFile inspect (component_source dirname n)
                   (component_target cwd n) w).2) as [b ->].
    by eexists. }
  destruct (includes availableContexts n).
  { destruct (pathExists _ w); by eexists. }
  destruct (includes availableThemes n); [|by eexists].
  destruct (pathExists _ w); [by eexists|].
  destruct (addRelatedContext_returns "ThemeContext"
              (copyFile inspect (theme_source dirname n)
                 (theme_target cwd n) w).2) as [b ->].
  by eexists.
Qed.

Lemma addValid_returns n w :
  addValid inspect dirname (Some cwd) n w
  = Returned tt (world (addValid inspect dirname (Some cwd) n w)).
Proof.
  unfold addValid. destruct (place_returns n w) as [b ->]. done.
Qed.

Lemma addNamed_returns n w :
  addNamed inspect dirname (Some cwd) n w
  = Returned tt (world (addNamed inspect dirname (Some cwd) n w)).
Proof.
  unfold addNamed. destruct (negb _); [done | apply addValid_returns].
Qed.

(** The loop over the items, when nothing throws. *)
Lemma addEach_returns l w :
  addEach inspect dirname (Some cwd) l w
  = Returned tt
      (fold_left (fun w item => world (addNamed inspect dirname (Some cwd) item w))
         l w).
Proof.
  revert w. induction l as [|x l IH]; intros w; [done|].
  simpl. rewrite addNamed_returns. apply IH.
Qed.

Lemma addComponent_all w :
  addComponent inspect dirname (Some cwd) (Some "all") w =
    Returned tt
      (log msg_added_all
         (fold_left
            (fun w item => world (addNamed inspect dirname (Some cwd) item w))
            allItems w)).
Proof.
  unfold addComponent.
  destruct (String.eqb_spec "all" EmptyString) as [|_]; [done|].
  destruct (String.eqb_spec "all" "all") as [_|]; [|done].
  by rewrite addEach_returns.
Qed.

Lemma addComponent_returns name w :
  addComponent inspect dirname (Some cwd) name w
  = Returned tt (world (addComponent inspect dirname (Some cwd) name w)).
Proof.
  unfold addComponent. destruct name as [n|]; [|done].
  destruct (String.eqb n EmptyString); [done|].
  destruct (String.eqb n "all"); [|apply addNamed_returns].
  by rewrite addEach_returns.
Qed.

Lemma main_add name w :
  main inspect dirname (Some cwd) (Some "add") name w
  = (world (addComponent inspect dirname (Some cwd) name w), 0%Z).
Proof.
  unfold main, dispatch.
  destruct (String.eqb_spec "add" "add") as [_|]; [|done].
  by rewrite addComponent_returns.
Qed.

(** *** The single cases *)

Lemma addComponent_valid pcwd n w :
  isValidComponent n = true →
  addComponent inspect dirname pcwd (Some n) w
  = addValid inspect dirname pcwd n w.
Proof.
  intros Hv. unfold addComponent, addNamed.
  destruct (String.eqb_spec n EmptyString) as [->|_]; [done|].
  destruct (String.eqb_spec n "all") as [->|_]; [done|].
  by rewrite Hv.
Qed.

Lemma addComponent_unknown pcwd n w :
  n ≠ EmptyString → n ≠ "all" → isValidComponent n = false →
  addComponent inspect dirname pcwd (Some n) w =
    Returned tt
      (mkWorld (files w) (dirs w) (rejections w)
         (console w ++ unknown_component_lines n)).
Proof.
  intros Hne Hna Hv. unfold addComponent, addNamed.
  destruct (String.eqb_spec n EmptyString) as [|_]; [done|].
  destruct (String.eqb_spec n "all") as [|_]; [done|].
  rewrite Hv. cbn [negb]. rewrite !log_items_spec. simpl.
  unfold unknown_component_lines, item_lines.
  by rewrite <- ?app_assoc.
Qed.

(** A valid name whose target exists: one informational line, and nothing
    else happens. *)
Lemma addValid_existing n w :
  isValidComponent n = true → pathExists (target_path cwd n) w = true →
  addValid inspect dirname (Some cwd) n w = Returned tt (log (msg_exists n) w).
Proof.
  unfold isValidComponent, addValid, place, process_cwd, target_path.
  intros Hv Hex.
  destruct (includes availableComponents n); [by rewrite Hex|].
  destruct (includes availableContexts n); [by rewrite Hex|].
  destruct (includes availableThemes n); [by rewrite Hex | done].
Qed.

(** A valid name when [process.cwd()] throws: the error leaves
    [addComponent] before anything is printed or written. *)
Lemma addValid_throws n w :
  isValidComponent n = true →
  addValid inspect dirname None n w = Thrown ENOCWD w.
Proof.
  unfold isValidComponent, addValid, place, process_cwd.
  destruct (includes availableComponents n); [done|].
  destruct (includes availableContexts n); [done|].
  by destruct (includes availableThemes n).
Qed.

Lemma addComponent_all_throws w :
  addComponent inspect dirname None (Some "all") w = Thrown ENOCWD w.
Proof. done. Qed.

Lemma showHelp_error line w :
  showHelp (error line w) =
    mkWorld (files w) (dirs w) (rejections w)
      (console w ++ [(Err, line); (Out, help_text)]).
Proof. unfold showHelp, error, log, print. simpl. by rewrite <- app_assoc. Qed.

Lemma listComponents_spec w :
  listComponents w =
    mkWorld (files w) (dirs w) (rejections w) (console w ++ list_lines).
Proof.
  unfold listComponents. rewrite !log_items_spec.
  unfold log, print, list_lines, item_lines.
  cbn [files dirs rejections console].
  by rewrite <- !app_assoc.
Qed.

Lemma main_list pcwd name w :
  main inspect dirname pcwd (Some "list") name w
  = (mkWorld (files w) (dirs w) (rejections w) (console w ++ list_lines), 0%Z).
Proof.
  change (main inspect dirname pcwd (Some "list") name w)
    with (listComponents w, 0%Z).
  by rewrite listComponents_spec.
Qed.

Lemma main_unknown pcwd command w name :
  command ≠ Some "add" → command ≠ Some "list" → command ≠ Some "help" →
  main inspect dirname pcwd command name w =
    (mkWorld (files w) (dirs w) (rejections w)
       (console w ++ [(Err, msg_unknown_command command); (Out, help_text)]),
     0%Z).
Proof.
  intros Ha Hl Hh. unfold main, dispatch. rewrite <- showHelp_error.
  destruct command as [c|]; [|done].
  destruct (String.eqb_spec c "add") as [->|_]; [done|].
  destruct (String.eqb_spec c "list") as [->|_]; [done|].
  by destruct (String.eqb_spec c "help") as [->|_].
Qed.

Lemma files_log line w : files (log line w) = files w.
Proof. done. Qed.

Lemma announce_files n w :
  files (announce n w) = files w ∧ dirs (announce n w) = dirs w.
Proof. unfold announce. by destruct (requiredDeps n). Qed.

(** *** Where the targets are *)

Lemma append_assoc (a b c : string) : (a +:+ b) +:+ c = a +:+ (b +:+ c).
Proof.
  induction a as [|x a IH]; [done|].
  change (String x ((a +:+ b) +:+ c) = String x (a +:+ b +:+ c)).
  by rewrite IH.
Qed.

Lemma append_inj_l (a x y : string) : a +:+ x = a +:+ y → x = y.
Proof.
  induction a as [|c a IH]; [done|].
  change (String c (a +:+ x) = String c (a +:+ y) → x = y).
  intros [=]. auto.
Qed.

Lemma append_not_root (a : string) (c : ascii) (b : string) :
  a +:+ String "/" (String c b) ≠ "/".
Proof.
  destruct a as [|x [|y a]]; [discriminate | discriminate |].
  change (String x (String y (a +:+ String "/" (String c b))) ≠ "/").
  discriminate.
Qed.

Lemma append_length (a b : string) :
  String.length (a +:+ b) = (String.length a + String.length b)%nat.
Proof.
  induction a as [|c a IH]; [done|].
  change (S (String.length (a +:+ b))
          = S (String.length a + String.length b)).
  by rewrite IH.
Qed.

Lemma resolve_append base rel :
  resolve base rel = (if String.eqb base "/" then EmptyString else base)
                     +:+ "/" +:+ rel.
Proof. unfold resolve. by destruct (String.eqb base "/"). Qed.

Lemma resolve_resolve base (c : ascii) (a rel : string) :
  resolve (resolve base (String c a)) rel
  = resolve base (String c a) +:+ "/" +:+ rel.
Proof.
  unfold resolve at 1.
  destruct (String.eqb_spec (resolve base (String c a)) "/") as [E|_]; [|done].
  rewrite resolve_append in E. by apply append_not_root in E.
Qed.

(** All targets hang under one root: [cwd], or nothing when [cwd] is the
    root directory. *)
Lemma targets_under_root :
  ∃ root, ∀ x,
    target_path cwd x = root +:+ rel_target x ∧
    context_target cwd x = root +:+ "/context/" +:+ x +:+ ".tsx".
Proof.
  exists (if String.eqb cwd "/" then EmptyString else cwd). intros x.
  unfold target_path, rel_target, component_target, context_target,
    theme_target.
  rewrite !resolve_resolve, !resolve_append, !append_assoc.
  split; [|done].
  destruct (includes availableComponents x); [done|].
  by destruct (includes availableContexts x).
Qed.

(** The valid names, one by one. *)
Lemma valid_cases n :
  isValidComponent n = true →
  In n (availableComponents ++ availableContexts ++ availableThemes).
Proof.
  unfold isValidComponent. rewrite !orb_true_iff, !includes_true.
  rewrite <- !list_elem_of_In, !elem_of_app. tauto.
Qed.

Lemma context_is_valid ctx :
  ctx ∈ availableContexts →
  isValidComponent ctx = true ∧ context_target cwd ctx = target_path cwd ctx.
Proof.
  intros Hin. apply list_elem_of_In in Hin. simpl in Hin.
  repeat (destruct Hin as [<-|Hin]; [done|]). done.
Qed.

(** The targets of two different valid names are different. *)
Lemma valid_targets_apart x y :
  isValidComponent x = true → isValidComponent y = true → x ≠ y →
  target_path cwd x ≠ target_path cwd y.
Proof.
  destruct targets_under_root as [root Hroot].
  intros Hx%valid_cases Hy%valid_cases Hne.
  rewrite (proj1 (Hroot x)), (proj1 (Hroot y)).
  intros Heq%append_inj_l. revert Heq.
  simpl in Hx, Hy.
  repeat (destruct Hx as [<-|Hx]; [|]); try done;
    repeat (destruct Hy as [<-|Hy]; [|]); try done;
    vm_compute; discriminate.
Qed.

Lemma allItems_target_not_context x ctx :
  x ∈ allItems → ctx ∈ availableContexts →
  target_path cwd x ≠ context_target cwd ctx.
Proof.
  intros Hx Hc. destruct (context_is_valid ctx Hc) as [Hv ->].
  apply valid_targets_apart; [by apply allItems_valid | done |].
  intros ->. apply list_elem_of_In in Hx, Hc. simpl in Hx, Hc.
  repeat (destruct Hc as [<-|Hc];
          [repeat (destruct Hx as [Hx|Hx]; [discriminate Hx|]); done|]).
  done.
Qed.

(** *** Where the directories are *)

Lemma before_last_slash_app (a b d : string) :
  before_last_slash b = Some d →
  before_last_slash (a +:+ b) = Some (a +:+ d).
Proof.
  intros Hb. induction a as [|c a IH]; [done|].
  change (before_last_slash (String c (a +:+ b)) = Some (String c (a +:+ d))).
  simpl. by rewrite IH.
Qed.

Lemma path_dirname_app (a b : string) (c : ascii) (d : string) :
  before_last_slash b = Some (String c d) →
  path_dirname (a +:+ b) = a +:+ String c d.
Proof.
  intros Hb. unfold path_dirname.
  rewrite (before_last_slash_app a b _ Hb). by destruct a.
Qed.

Lemma slash_prefixes_shorter p q :
  q ∈ slash_prefixes p → (String.length q < String.length p)%nat.
Proof.
  revert q. induction p as [|c p IH]; intros q; simpl.
  { by intros ?%elem_of_nil. }
  rewrite elem_of_app, list_elem_of_fmap. intros [Hq|(q' & -> & Hq')].
  - destruct (Ascii.eqb c "/"); [|by apply elem_of_nil in Hq].
    apply list_elem_of_singleton in Hq as ->. simpl. lia.
  - apply IH in Hq'. simpl. lia.
Qed.

Lemma slash_prefixes_app (a b : string) :
  slash_prefixes (a +:+ b)
  = slash_prefixes a ++ (String.append a <$> slash_prefixes b).
Proof.
  induction a as [|c a IH].
  - simpl. by rewrite list_fmap_id.
  - change (slash_prefixes (String c (a +:+ b))
            = slash_prefixes (String c a)
              ++ (String.append (String c a) <$> slash_prefixes b)).
    simpl. rewrite IH, fmap_app, <- app_assoc, <- list_fmap_compose. done.
Qed.

Lemma in_dir_chain d q : q ∈ dir_chain d → q = d ∨ q ∈ slash_prefixes d.
Proof.
  unfold dir_chain.
  rewrite elem_of_app, list_elem_of_singleton, !list_elem_of_In, filter_In.
  tauto.
Qed.

(** The directory of the target of a valid name. *)
Lemma valid_rel_dir y :
  isValidComponent y = true →
  before_last_slash (rel_target y) = Some (rel_dir y) ∧
  ∃ c d, rel_dir y = String c d.
Proof.
  intros Hy%valid_cases. simpl in Hy.
  repeat (destruct Hy as [<-|Hy]; [split; [by vm_compute | by eexists _, _]|]).
  done.
Qed.

(** No target is among the directories made for a target. *)
Lemma target_not_in_target_dirs x y :
  isValidComponent x = true → isValidComponent y = true →
  target_path cwd x ∉ target_dirs (target_path cwd y).
Proof.
  destruct targets_under_root as [root Hroot].
  intros Hx Hy. destruct (valid_rel_dir y Hy) as [Hdir (c & d & Hcd)].
  rewrite (proj1 (Hroot x)), (proj1 (Hroot y)). unfold target_dirs.
  rewrite Hcd in Hdir. rewrite (path_dirname_app _ _ _ _ Hdir), <- Hcd.
  intros [Heq|Hin]%in_dir_chain.
  - apply append_inj_l in Heq. revert Heq.
    apply valid_cases in Hx. simpl in Hx. unfold rel_dir.
    destruct (includes availableComponents y);
      [|destruct (includes availableContexts y)];
      repeat (destruct Hx as [<-|Hx]; [by vm_compute|]); done.
  - rewrite slash_prefixes_app, elem_of_app, list_elem_of_fmap in Hin.
    destruct Hin as [Hin|(q & Heq & Hq)].
    + apply slash_prefixes_shorter in Hin. rewrite append_length in Hin. lia.
    + apply append_inj_l in Heq. subst q. revert Hq.
      apply valid_cases in Hx. simpl in Hx. unfold rel_dir.
      destruct (includes availableComponents y);
        [|destruct (includes availableContexts y)];
        repeat (destruct Hx as [<-|Hx];
                [rewrite list_elem_of_In; vm_compute; intuition discriminate|]);
        done.
Qed.

(** *** What a copy writes *)

Lemma not_unwritable tgt w : tgt ∉ unwritable w ↔ rejections w !! tgt = None.
Proof. unfold unwritable. apply not_elem_of_dom. Qed.

Lemma copyFile_ok src tgt content w :
  files w !! src = Some content → tgt ∉ unwritable w →
  tgt ∉ dirs w → tgt ∉ target_dirs tgt →
  copyFile inspect src tgt w =
    (true, log (msg_created tgt)
             (mkWorld (<[tgt := content]> (files w))
                (dirs w ∪ list_to_set (target_dirs tgt)) (rejections w)
                (console w))).
Proof.
  intros Hsrc Hw%not_unwritable Hd Hchain. unfold copyFile, ensureDir.
  rewrite Hw. unfold readFile, writeFile, mkdirs.
  cbn [files dirs rejections console].
  change (dir_chain (path_dirname tgt)) with (target_dirs tgt).
  rewrite Hsrc, Hw.
  rewrite bool_decide_eq_false_2;
    [done | rewrite elem_of_union, elem_of_list_to_set; by intros [|]].
Qed.

(** A copy whose source is missing or whose target is among the refused
    ones prints its error, and makes at most directories of the target. *)
Lemma copyFile_fails src tgt w :
  files w !! src = None ∨ tgt ∈ unwritable w →
  ∃ e l, l ⊆ target_dirs tgt ∧
         copyFile inspect src tgt w
         = (false, error (msg_failed inspect src e) (mkdirs l w)).
Proof.
  intros Hfail. unfold copyFile, ensureDir.
  change (dir_chain (path_dirname tgt)) with (target_dirs tgt).
  destruct (rejections w !! tgt) as [[made e|e]|] eqn:Hrej.
  - exists e, (take made (target_dirs tgt)). split; [apply subseteq_take | done].
  - unfold readFile, writeFile, mkdirs. cbn [files dirs rejections console].
    destruct (files w !! src) as [content|]; [|by eexists _, _].
    case_bool_decide; [by eexists _, _|]. rewrite Hrej. by eexists _, _.
  - unfold readFile, mkdirs. cbn [files dirs rejections console].
    destruct (files w !! src) as [content|]; [|by eexists _, _].
    destruct Hfail as [|Hin]; [done|].
    by apply not_unwritable in Hrej.
Qed.

(** A copy that returns [false] has printed its error and nothing else. *)
Lemma copyFile_false src tgt w :
  (copyFile inspect src tgt w).1 = false →
  ∃ e l, l ⊆ target_dirs tgt ∧
         copyFile inspect src tgt w
         = (false, error (msg_failed inspect src e) (mkdirs l w)).
Proof.
  unfold copyFile, ensureDir.
  change (dir_chain (path_dirname tgt)) with (target_dirs tgt).
  destruct (rejections w !! tgt) as [[made e|e]|] eqn:Hrej.
  { intros _. exists e, (take made (target_dirs tgt)).
    split; [apply subseteq_take | done]. }
  all: unfold writeFile; cbn [mkdirs rejections dirs]; rewrite Hrej;
    (destruct (readFile src _) as [e'|content];
       [intros _; by eexists _, (target_dirs tgt)|]);
    (case_bool_decide; [intros _; by eexists _, (target_dirs tgt)|]).
  - intros _. by eexists _, (target_dirs tgt).
  - intros [=].
Qed.

Lemma copyFile_other src tgt w p :
  p ≠ tgt → files (copyFile inspect src tgt w).2 !! p = files w !! p.
Proof.
  intros Hp. unfold copyFile.
  assert (files (world (ensureDir (path_dirname tgt) tgt w)) = files w) as Hf.
  { unfold ensureDir. by destruct (rejections w !! tgt) as [[made e|e]|]. }
  destruct (ensureDir (path_dirname tgt) tgt w) as [[] w1|e w1];
    cbn [world] in Hf; [|by rewrite <- Hf].
  unfold writeFile. destruct (readFile src _) as [e|content]; [by rewrite <- Hf|].
  case_bool_decide; [by rewrite <- Hf|].
  destruct (rejections w1 !! tgt) as [[made e|e]|]; cbn [snd log print files];
    rewrite <- Hf; by rewrite ?lookup_insert_ne.
Qed.

Lemma ensureDir_dirs tgt w d :
  d ∈ dirs (world (ensureDir (path_dirname tgt) tgt w)) →
  d ∈ dirs w ∨ d ∈ target_dirs tgt.
Proof.
  unfold ensureDir. change (dir_chain (path_dirname tgt)) with (target_dirs tgt).
  destruct (rejections w !! tgt) as [[made e|e]|]; cbn [world mkdirs dirs];
    rewrite elem_of_union, elem_of_list_to_set; intros [H|H]; auto.
  right. by eapply subseteq_take.
Qed.

(** The only directories that a copy makes are those of its target. *)
Lemma copyFile_dirs src tgt w d :
  d ∈ dirs (copyFile inspect src tgt w).2 →
  d ∈ dirs w ∨ d ∈ target_dirs tgt.
Proof.
  unfold copyFile. pose proof (ensureDir_dirs tgt w d) as He.
  destruct (ensureDir (path_dirname tgt) tgt w) as [[] w1|e w1];
    cbn [world] in He; [|done].
  unfold writeFile. destruct (readFile src _) as [e|content]; [done|].
  case_bool_decide; [done|].
  by destruct (rejections w1 !! tgt) as [[made e|e]|].
Qed.

(** It makes all of them unless [ensureDir] rejects. *)
Lemma copyFile_makes_dirs src tgt w d :
  (∀ made e, rejections w !! tgt ≠ Some (MkdirRejects made e)) →
  d ∈ target_dirs tgt → d ∈ dirs (copyFile inspect src tgt w).2.
Proof.
  intros Hrej Hd. unfold copyFile, ensureDir.
  change (dir_chain (path_dirname tgt)) with (target_dirs tgt).
  assert (d ∈ dirs (mkdirs (target_dirs tgt) w)) as Hin.
  { cbn [mkdirs dirs]. rewrite elem_of_union, elem_of_list_to_set. by right. }
  assert (∀ w1, d ∈ dirs w1 →
            d ∈ dirs (match readFile src w1 with
                      | inl e => (false, error (msg_failed inspect src e) w1)
                      | inr content =>
                          match writeFile tgt content w1 with
                          | inl e =>
                              (false, error (msg_failed inspect src e) w1)
                          | inr w' => (true, log (msg_created tgt) w')
                          end
                      end).2) as Hrest.
  { intros w1 Hw1. unfold writeFile.
    destruct (readFile src w1) as [e|content]; [done|].
    case_bool_decide; [done|].
    by destruct (rejections w1 !! tgt) as [[made e|e]|]. }
  destruct (rejections w !! tgt) as [[made e|e]|] eqn:Heq;
    [by destruct (Hrej made e) | by apply Hrest..].
Qed.

Lemma copyFile_rejections src tgt w :
  rejections (copyFile inspect src tgt w).2 = rejections w.
Proof.
  unfold copyFile.
  assert (rejections (world (ensureDir (path_dirname tgt) tgt w))
          = rejections w) as Hf.
  { unfold ensureDir. by destruct (rejections w !! tgt) as [[made e|e]|]. }
  destruct (ensureDir (path_dirname tgt) tgt w) as [[] w1|e w1];
    cbn [world] in Hf; [|done].
  unfold writeFile. destruct (readFile src _) as [e|content]; [done|].
  case_bool_decide; [done|].
  by destruct (rejections w1 !! tgt) as [[made e|e]|].
Qed.

Lemma related_context_inv n ctx :
  related_context n = Some ctx → n ∈ allItems ∧ ctx ∈ availableContexts.
Proof.
  assert (∀ c, In c availableContexts → c ∈ availableContexts) as Hin.
  { intros c. apply list_elem_of_In. }
  unfold related_context, allItems.
  destruct (includes availableComponents n) eqn:Hc.
  { apply includes_true in Hc.
    assert (n ∈ availableComponents ++ availableThemes) as Hn
      by (apply elem_of_app; by left).
    destruct (String.eqb n "Toast");
      [intros [= <-]; split; [done | apply Hin; simpl; tauto]|].
    destruct (String.eqb n "Alert"); [|done].
    intros [= <-]; split; [done | apply Hin; simpl; tauto]. }
  destruct (includes availableContexts n); [done|].
  destruct (includes availableThemes n) eqn:Ht; [|done].
  apply includes_true in Ht. intros [= <-].
  split; [apply elem_of_app; by right | apply Hin; simpl; tauto].
Qed.

Lemma addRelatedContext_other ctx w p :
  p ≠ context_target cwd ctx →
  files (world (addRelatedContext inspect dirname (Some cwd) ctx w)) !! p
  = files w !! p.
Proof.
  intros Hp. unfold addRelatedContext, process_cwd.
  destruct (negb _); [done|]. destruct (pathExists _ w); [done|].
  pose proof (copyFile_other (context_source dirname ctx)
                (context_target cwd ctx) w p Hp) as Hc.
  by destruct (copyFile _ _ _ w) as [[] w'].
Qed.

Lemma addRelatedContext_dirs ctx w d :
  d ∈ dirs (world (addRelatedContext inspect dirname (Some cwd) ctx w)) →
  d ∈ dirs w ∨ d ∈ target_dirs (context_target cwd ctx).
Proof.
  unfold addRelatedContext, process_cwd.
  destruct (negb _); [by left|]. destruct (pathExists _ w); [by left|].
  pose proof (copyFile_dirs (context_source dirname ctx)
                (context_target cwd ctx) w d) as Hc.
  by destruct (copyFile _ _ _ w) as [[] w'].
Qed.

Lemma addRelatedContext_existing ctx w :
  includes availableContexts ctx = true →
  pathExists (context_target cwd ctx) w = true →
  addRelatedContext inspect dirname (Some cwd) ctx w
  = Returned true (log (msg_exists ctx) w).
Proof.
  intros Hin Hex. unfold addRelatedContext, process_cwd. by rewrite Hin, Hex.
Qed.

Lemma addRelatedContext_copies ctx content w :
  ctx ∈ availableContexts →
  files w !! context_source dirname ctx = Some content →
  pathExists (context_target cwd ctx) w = false →
  context_target cwd ctx ∉ unwritable w →
  files (world (addRelatedContext inspect dirname (Some cwd) ctx w))
    !! context_target cwd ctx = Some content ∧
  printed w (world (addRelatedContext inspect dirname (Some cwd) ctx w))
    (Out, msg_auto_added ctx).
Proof.
  intros Hctx Hsrc Hex Hw.
  destruct (context_is_valid ctx Hctx) as [Hv Htgt].
  pose proof Hex as [Hnone Hd]%pathExists_false.
  apply includes_true in Hctx. unfold addRelatedContext, process_cwd.
  rewrite Hctx, Hex. cbn [negb].
  rewrite (copyFile_ok _ _ content); try done.
  - cbn [world]. split; [apply lookup_insert_eq|].
    eapply printed_follows_l; [|apply printed_log].
    eapply follows_trans; [|apply follows_log].
    split; simpl; [by apply insert_subseteq | apply union_subseteq_l | done |].
    exists []. split; [by rewrite app_nil_r|].
    intros l Hl. by apply elem_of_nil in Hl.
  - rewrite Htgt. by apply target_not_in_target_dirs.
Qed.

(** *** The add of a valid name whose target is free *)

(** The copy, then the related context if there is one, then the
    announcement. *)
Lemma addValid_absent n w :
  isValidComponent n = true → pathExists (target_path cwd n) w = false →
  addValid inspect dirname (Some cwd) n w =
    Returned tt
      (announce n
         (match related_context n with
          | Some ctx =>
              world (addRelatedContext inspect dirname (Some cwd) ctx
                       (copyFile inspect (source_path dirname n)
                          (target_path cwd n) w).2)
          | None =>
              (copyFile inspect (source_path dirname n) (target_path cwd n) w).2
          end)).
Proof.
  unfold isValidComponent, addValid, place, process_cwd, target_path,
    source_path, related_context.
  destruct (includes availableComponents n).
  { intros _ ->. destruct (String.eqb n "Toast").
    { by destruct (addRelatedContext_returns "ToastContext"
                     (copyFile inspect (component_source dirname n)
                        (component_target cwd n) w).2) as [b ->]. }
    destruct (String.eqb n "Alert"); [|done].
    by destruct (addRelatedContext_returns "AlertContext"
                   (copyFile inspect (component_source dirname n)
                      (component_target cwd n) w).2) as [b ->]. }
  destruct (includes availableContexts n); [by intros _ ->|].
  destruct (includes availableThemes n); [|done]. intros _ ->.
  by destruct (addRelatedContext_returns "ThemeContext"
                 (copyFile inspect (theme_source dirname n)
                    (theme_target cwd n) w).2) as [b ->].
Qed.

(** What comes after the copy of a valid name follows it. *)
Lemma follows_after_copy n w1 :
  follows inspect w1
    (announce n
       (match related_context n with
        | Some ctx =>
            world (addRelatedContext inspect dirname (Some cwd) ctx w1)
        | None => w1
        end)).
Proof.
  eapply follows_trans; [|apply follows_announce].
  destruct (related_context n) as [ctx|] eqn:Hrel; [|apply follows_refl].
  apply follows_addRelatedContext, includes_true.
  by destruct (related_context_inv n ctx Hrel).
Qed.

(** A valid name whose source is there and whose target is free and
    writable: the target receives the content of the source. *)
Lemma addValid_copies n content w :
  isValidComponent n = true →
  files w !! source_path dirname n = Some content →
  pathExists (target_path cwd n) w = false →
  target_path cwd n ∉ unwritable w →
  files (world (addValid inspect dirname (Some cwd) n w)) !! target_path cwd n
    = Some content ∧
  printed w (world (addValid inspect dirname (Some cwd) n w))
    (Out, msg_created (target_path cwd n)) ∧
  printed w (world (addValid inspect dirname (Some cwd) n w))
    (Out, msg_added n).
Proof.
  intros Hv Hsrc Hex Hw. pose proof Hex as [Hnone Hd]%pathExists_false.
  rewrite addValid_absent by done. cbn [world].
  rewrite (copyFile_ok _ _ content);
    [|done|done|done|by apply target_not_in_target_dirs]. cbn [snd].
  set (w0 := mkWorld (<[target_path cwd n := content]> (files w))
               (dirs w ∪ list_to_set (target_dirs (target_path cwd n)))
               (rejections w) (console w)).
  set (w1 := log (msg_created (target_path cwd n)) w0).
  assert (follows inspect w w0) as F0.
  { split; simpl; [by apply insert_subseteq | apply union_subseteq_l | done |].
    exists []. split; [by rewrite app_nil_r|].
    intros l Hl. by apply elem_of_nil in Hl. }
  pose proof (follows_after_copy n w1) as F.
  split; [|split].
  - eapply lookup_weaken; [|apply F]. apply lookup_insert_eq.
  - eapply printed_follows_l; [exact F0|].
    eapply printed_follows_r; [apply printed_log | exact F].
  - set (w2 := match related_context n with
               | Some ctx =>
                   world (addRelatedContext inspect dirname (Some cwd) ctx w1)
               | None => w1
               end).
    assert (follows inspect w w2) as F2.
    { eapply follows_trans; [exact F0|].
      eapply follows_trans; [apply follows_log|]. unfold w2.
      destruct (related_context n) as [ctx|] eqn:Hrel; [|apply follows_refl].
      apply follows_addRelatedContext, includes_true.
      by destruct (related_context_inv n ctx Hrel). }
    eapply printed_follows_l; [exact F2|]. unfold announce.
    destruct (requiredDeps n); [apply printed_log|].
    eapply printed_follows_r; [apply printed_log | apply follows_log].
Qed.

(** *** What an add can write *)

(** Adding a name writes no file but its own target and the target of its
    related context. *)
Lemma addNamed_other n w p :
  p ≠ target_path cwd n →
  (∀ ctx, related_context n = Some ctx → p ≠ context_target cwd ctx) →
  files (world (addNamed inspect dirname (Some cwd) n w)) !! p = files w !! p.
Proof.
  intros Hp Hctx. unfold addNamed.
  destruct (isValidComponent n) eqn:Hv; cbn [negb];
    [|by rewrite !log_items_spec].
  destruct (pathExists (target_path cwd n) w) eqn:Hex;
    [by rewrite addValid_existing|].
  rewrite addValid_absent by done. cbn [world].
  rewrite (proj1 (announce_files _ _)).
  destruct (related_context n) as [ctx|];
    [rewrite addRelatedContext_other by auto|]; by apply copyFile_other.
Qed.

(** It makes no directory but those of these two targets. *)
Lemma addNamed_dirs n w d :
  d ∈ dirs (world (addNamed inspect dirname (Some cwd) n w)) →
  d ∈ dirs w ∨ d ∈ target_dirs (target_path cwd n) ∨
  ∃ ctx, related_context n = Some ctx ∧
         d ∈ target_dirs (context_target cwd ctx).
Proof.
  unfold addNamed.
  destruct (isValidComponent n) eqn:Hv; cbn [negb];
    [|rewrite !log_items_spec; by left].
  destruct (pathExists (target_path cwd n) w) eqn:Hex;
    [rewrite addValid_existing by done; by left|].
  rewrite addValid_absent by done. cbn [world].
  rewrite (proj2 (announce_files _ _)).
  destruct (related_context n) as [ctx|].
  - intros [Hd|Hd]%addRelatedContext_dirs; [|right; right; by exists ctx].
    apply copyFile_dirs in Hd. tauto.
  - intros Hd%copyFile_dirs. tauto.
Qed.

(** The target of an item stays free while other items are added. *)
Lemma addNamed_keeps_free x item w :
  x ∈ allItems → item ∈ allItems → x ≠ item →
  pathExists (target_path cwd item) w = false →
  pathExists (target_path cwd item)
    (world (addNamed inspect dirname (Some cwd) x w)) = false.
Proof.
  intros Hx Hi Hne [Hnone Hd]%pathExists_false. apply pathExists_false.
  pose proof (allItems_valid x Hx) as Hvx.
  pose proof (allItems_valid item Hi) as Hvi.
  split.
  - rewrite addNamed_other; [done | |].
    + apply valid_targets_apart; [done | done | by intros ->].
    + intros ctx [_ Hc]%related_context_inv.
      by apply allItems_target_not_context.
  - intros [Hin|[Hin|(ctx & Hrel & Hin)]]%addNamed_dirs; [done | |].
    + by apply (target_not_in_target_dirs item x).
    + destruct (related_context_inv _ _ Hrel) as [_ Hc].
      destruct (context_is_valid ctx Hc) as [Hvc Heq]. rewrite Heq in Hin.
      by apply (target_not_in_target_dirs item ctx).
Qed.

Lemma addNamed_copies n content w :
  isValidComponent n = true →
  files w !! source_path dirname n = Some content →
  pathExists (target_path cwd n) w = false →
  target_path cwd n ∉ unwritable w →
  files (world (addNamed inspect dirname (Some cwd) n w)) !! target_path cwd n
  = Some content.
Proof.
  intros Hv Hsrc Hnone Hw. unfold addNamed. rewrite Hv. cbn [negb].
  by apply addValid_copies.
Qed.

Lemma follows_fold l w :
  follows inspect w
    (fold_left (fun w x => world (addNamed inspect dirname (Some cwd) x w)) l w).
Proof.
  revert w. induction l as [|x l IH]; intros w; [apply follows_refl|].
  simpl. eapply follows_trans; [apply follows_addNamed | apply IH].
Qed.

(** In a run over different items of [allItems], each item whose source is
    there and whose target is free and writable at the start is copied. *)
Lemma fold_addNamed_copies l w item content :
  NoDup l → (∀ x, x ∈ l → x ∈ allItems) → item ∈ l →
  files w !! source_path dirname item = Some content →
  pathExists (target_path cwd item) w = false →
  target_path cwd item ∉ unwritable w →
  files (fold_left (fun w x => world (addNamed inspect dirname (Some cwd) x w))
           l w)
    !! target_path cwd item = Some content.
Proof.
  revert w. induction l as [|x l IH]; intros w Hnd Hall Hin Hsrc Hnone Hw.
  { by apply elem_of_nil in Hin. }
  apply NoDup_cons in Hnd as [Hx Hnd]. simpl.
  apply elem_of_cons in Hin as [<-|Hin].
  - eapply lookup_weaken; [|apply follows_fold].
    apply addNamed_copies; try done.
    apply allItems_valid, Hall. by left.
  - pose proof (follows_addNamed (Some cwd) x w) as [Hf _ Hu _].
    apply IH; try done.
    + intros y Hy. apply Hall. by right.
    + by eapply lookup_weaken.
    + apply addNamed_keeps_free; [apply Hall; by left | apply Hall; by right
                                 | by intros -> | done].
    + unfold unwritable. by rewrite Hu.
Qed.

Lemma allItems_NoDup : NoDup allItems.
Proof. apply (bool_decide_unpack (NoDup allItems)). by vm_compute. Qed.

(** In a run over several names, each name whose target exists at the
    start gets its informational line. *)
Lemma fold_addNamed_existing l w item :
  item ∈ l → (∀ x, x ∈ l → isValidComponent x = true) →
  pathExists (target_path cwd item) w = true →
  printed w
    (fold_left (fun w x => world (addNamed inspect dirname (Some cwd) x w)) l w)
    (Out, msg_exists item).
Proof.
  revert w. induction l as [|x l IH]; intros w Hin Hall Hex.
  { by apply elem_of_nil in Hin. }
  simpl. apply elem_of_cons in Hin as [<-|Hin].
  - eapply printed_follows_r; [|apply follows_fold].
    unfold addNamed. rewrite Hall by (by left). cbn [negb].
    rewrite addValid_existing by (done || apply Hall; by left).
    apply printed_log.
  - eapply printed_follows_l; [apply follows_addNamed|].
    apply IH; [done | |].
    + intros y Hy. apply Hall. by right.
    + eapply pathExists_follows; [apply follows_addNamed | done].
Qed.

(** C3 (as amended): the failure modes are not only the two that the
    specification names.  Every line on the error stream is of one of five
    kinds: a missing component name, an unknown component name, an unknown
    command, a failed copy, and an error thrown inside the [try] block of
    [main].  A missing name and an unknown command print the error and the
    help and end with status 0; a failed copy prints its error; an error
    thrown by [process.cwd()] during an add is caught, printed, and ends
    the process with status 1.  In the two named cases the failure is
    handled by printing a message: for an unknown component name, the
    error and the lists of what is available; for a target that already
    exists, one informational line; in both, nothing is thrown, the exit
    status is 0, and no file or directory is changed. *)
Theorem cli_failures_print_messages (pcwd command name : option string)
    (w : World) :
  let r := main inspect dirname pcwd command name w in
  (∀ l, printed w r.1 (Err, l) → error_line inspect l) ∧
  (command = Some "add" → name = None ∨ name = Some EmptyString →
   r = (mkWorld (files w) (dirs w) (rejections w)
          (console w ++ [(Err, msg_no_name); (Out, help_text)]), 0%Z)) ∧
  (command ≠ Some "add" → command ≠ Some "list" → command ≠ Some "help" →
   r = (mkWorld (files w) (dirs w) (rejections w)
          (console w ++ [(Err, msg_unknown_command command);
                         (Out, help_text)]), 0%Z)) ∧
  (∀ src tgt w1, (copyFile inspect src tgt w1).1 = false →
   ∃ e, console (copyFile inspect src tgt w1).2
        = console w1 ++ [(Err, msg_failed inspect src e)]) ∧
  (pcwd = None → command = Some "add" →
   (∃ n, name = Some n ∧ (isValidComponent n = true ∨ n = "all")) →
   r = (mkWorld (files w) (dirs w) (rejections w)
          (console w ++ [(Err, msg_error_occurred inspect ENOCWD)]), 1%Z)) ∧
  (unknown_component_case command name →
   ∃ n, name = Some n ∧
        r = (mkWorld (files w) (dirs w) (rejections w)
               (console w ++ unknown_component_lines n), 0%Z)) ∧
  (pcwd = Some cwd → already_exists_case cwd command name w →
   ∃ n, name = Some n ∧
        r = (mkWorld (files w) (dirs w) (rejections w)
               (console w ++ [(Out, msg_exists n)]), 0%Z)).
Proof.
  intros r. pose proof (follows_main pcwd command name w) as Hf.
  split; [intros l; by apply printed_error_line|].
  split; [|split; [|split; [|split; [|split]]]].
  - intros -> Hname. unfold r, main, dispatch.
    destruct (String.eqb_spec "add" "add") as [_|]; [|done].
    rewrite <- showHelp_error. by destruct Hname as [-> | ->].
  - intros Ha Hl Hh. unfold r. by apply main_unknown.
  - intros src tgt w1 (e & l & _ & ->)%copyFile_false. by exists e.
  - intros -> -> (n & -> & [Hv| ->]); unfold r, main, dispatch.
    + destruct (String.eqb_spec "add" "add") as [_|]; [|done].
      by rewrite addComponent_valid, addValid_throws.
    + done.
  - intros [-> (n & -> & Hne & Hna & Hv)]. exists n. split; [done|].
    unfold r, main, dispatch.
    destruct (String.eqb_spec "add" "add") as [_|]; [|done].
    by rewrite addComponent_unknown.
  - intros -> [-> (n & -> & Hv & Hex)]. exists n. split; [done|].
    unfold r. rewrite main_add, addComponent_valid by done.
    by rewrite addValid_existing.
Qed.

(** C6: [main] dispatches on the command: ["add"] runs [addComponent],
    which for ["all"] adds every available component and theme in turn and
    for a valid name with a free, writable target copies the source file
    to the target; ["list"] prints the available components and themes;
    ["help"] prints the usage; any other command prints the unknown-command
    error and then the usage.  Only ["add"] can change a file or depend on
    the working directory.  With ["all"], every item whose source is there
    and whose target is free and writable is copied. *)
Theorem cli_dispatch (command name : option string) (w : World) :
  let r := main inspect dirname (Some cwd) command name w in
  (command = Some "add" →
   r = (world (addComponent inspect dirname (Some cwd) name w), 0%Z)) ∧
  (command = Some "add" → name = Some "all" →
   r.1 = log msg_added_all
           (fold_left
              (fun w item => world (addNamed inspect dirname (Some cwd) item w))
              allItems w) ∧
   ∀ item content,
     item ∈ allItems →
     files w !! source_path dirname item = Some content →
     pathExists (target_path cwd item) w = false →
     target_path cwd item ∉ unwritable w →
     files r.1 !! target_path cwd item = Some content) ∧
  (∀ n content,
     command = Some "add" → name = Some n → isValidComponent n = true →
     files w !! source_path dirname n = Some content →
     pathExists (target_path cwd n) w = false →
     target_path cwd n ∉ unwritable w →
     files r.1 !! target_path cwd n = Some content ∧
     printed w r.1 (Out, msg_created (target_path cwd n)) ∧
     printed w r.1 (Out, msg_added n)) ∧
  (command = Some "list" →
   r = (mkWorld (files w) (dirs w) (rejections w) (console w ++ list_lines),
        0%Z)) ∧
  (command = Some "help" →
   r = (mkWorld (files w) (dirs w) (rejections w)
          (console w ++ [(Out, help_text)]), 0%Z)) ∧
  (command ≠ Some "add" → command ≠ Some "list" → command ≠ Some "help" →
   r = (mkWorld (files w) (dirs w) (rejections w)
          (console w ++ [(Err, msg_unknown_command command); (Out, help_text)]),
        0%Z)) ∧
  (command ≠ Some "add" → files r.1 = files w) ∧
  (command ≠ Some "add" →
   ∀ pcwd, main inspect dirname pcwd command name w = r).
Proof.
  intros r.
  assert (∀ pcwd, command = Some "list" →
          main inspect dirname pcwd command name w
          = (mkWorld (files w) (dirs w) (rejections w)
               (console w ++ list_lines), 0%Z)) as Hlist.
  { intros pcwd ->. apply main_list. }
  assert (∀ pcwd, command = Some "help" →
          main inspect dirname pcwd command name w
          = (mkWorld (files w) (dirs w) (rejections w)
               (console w ++ [(Out, help_text)]), 0%Z)) as Hhelp.
  { by intros pcwd ->. }
  split; [intros ->; apply main_add|]. split.
  { intros -> ->. unfold r. rewrite main_add, addComponent_all. cbn [fst world].
    split; [done|]. intros item content Hin Hsrc Hex Hw. rewrite files_log.
    apply fold_addNamed_copies; [apply allItems_NoDup | done..]. }
  split; [|split; [by apply Hlist|split; [by apply Hhelp|split;
    [by apply main_unknown|split]]]].
  - intros n content -> -> Hv Hsrc Hex Hw. unfold r.
    rewrite main_add, addComponent_valid by done. cbn [fst].
    by apply addValid_copies.
  - intros Ha.
    destruct (decide (command = Some "list")) as [Hl|Hl];
      [unfold r; by rewrite (Hlist _ Hl)|].
    destruct (decide (command = Some "help")) as [Hh|Hh];
      [unfold r; by rewrite (Hhelp _ Hh)|].
    unfold r. by rewrite (main_unknown _ _ _ _ Ha Hl Hh).
  - intros Ha pcwd.
    destruct (decide (command = Some "list")) as [Hl|Hl];
      [unfold r; by rewrite !(Hlist _ Hl)|].
    destruct (decide (command = Some "help")) as [Hh|Hh];
      [unfold r; by rewrite !(Hhelp _ Hh)|].
    unfold r. by rewrite !(main_unknown _ _ _ _ Ha Hl Hh).
Qed.

(** C8: no invocation changes the content of a file that exists when it
    starts, whether or not [process.cwd()] throws.  An ["add"] of a valid
    name whose target exists prints the already-exists line and does
    nothing else; ["add all"] prints that line for every item whose target
    exists; and a related context whose target exists is reported the same
    way instead of being copied. *)
Theorem add_keeps_existing_files (command name : option string) (w : World) :
  let r := main inspect dirname (Some cwd) command name w in
  (∀ pcwd p content,
     files w !! p = Some content →
     files (main inspect dirname pcwd command name w).1 !! p = Some content) ∧
  (∀ n, command = Some "add" → name = Some n → isValidComponent n = true →
        pathExists (target_path cwd n) w = true →
        r.1 = mkWorld (files w) (dirs w) (rejections w)
                (console w ++ [(Out, msg_exists n)])) ∧
  (command = Some "add" → name = Some "all" →
   ∀ item, item ∈ allItems → pathExists (target_path cwd item) w = true →
           printed w r.1 (Out, msg_exists item)) ∧
  (∀ ctx w1, includes availableContexts ctx = true →
             pathExists (context_target cwd ctx) w1 = true →
             addRelatedContext inspect dirname (Some cwd) ctx w1 =
               Returned true
                 (mkWorld (files w1) (dirs w1) (rejections w1)
                    (console w1 ++ [(Out, msg_exists ctx)]))).
Proof.
  intros r. split; [|split; [|split]].
  - intros pcwd p content Hp.
    destruct (follows_main pcwd command name w) as [Hf _ _ _].
    by eapply lookup_weaken.
  - intros n -> -> Hv Hex. unfold r.
    rewrite main_add, addComponent_valid by done.
    by rewrite addValid_existing.
  - intros -> -> item Hin Hex. unfold r.
    rewrite main_add, addComponent_all. cbn [fst world].
    eapply printed_follows_r; [|apply follows_log].
    apply fold_addNamed_existing; [done | apply allItems_valid | done].
  - intros ctx w1 Hin Hex. by rewrite addRelatedContext_existing.
Qed.

End Process.

(** C3 (as stated) fails: an ["add"] with no component name, an unknown
    command, a copy onto a target that cannot be written, and an add in a
    working directory that is gone each write to the error stream, the last
    one ending with status 1, and none of them is an unknown component name
    or an existing target. *)
Lemma cli_failure_modes_counterexample :
  let source := "/pkg/components/ui/Button.tsx" in
  let target := "/app/components/ui/Button.tsx" in
  let w := mkWorld {[ source := "export default Button;" ]} ∅
             {[ target := WriteRejects (EACCES target) ]} [] in
  let run := main code_of "/pkg" (Some "/app") in
  (console (run (Some "add") None w).1
     = [(Err, msg_no_name); (Out, help_text)] ∧
   reports_error w (run (Some "add") None w).1 ∧
   ¬ unknown_component_case (Some "add") None ∧
   ¬ already_exists_case "/app" (Some "add") None w) ∧
  (console (run (Some "remove") (Some "Button") w).1
     = [(Err, msg_unknown_command (Some "remove")); (Out, help_text)] ∧
   reports_error w (run (Some "remove") (Some "Button") w).1 ∧
   ¬ unknown_component_case (Some "remove") (Some "Button") ∧
   ¬ already_exists_case "/app" (Some "remove") (Some "Button") w) ∧
  (console (run (Some "add") (Some "Button") w).1
     = [(Err, msg_failed code_of source (EACCES target));
        (Out, msg_added "Button")] ∧
   reports_error w (run (Some "add") (Some "Button") w).1 ∧
   ¬ unknown_component_case (Some "add") (Some "Button") ∧
   ¬ already_exists_case "/app" (Some "add") (Some "Button") w) ∧
  (main code_of "/pkg" None (Some "add") (Some "Button") (mkWorld ∅ ∅ ∅ [])
     = (mkWorld ∅ ∅ ∅ [(Err, msg_error_occurred code_of ENOCWD)], 1%Z) ∧
   ¬ unknown_component_case (Some "add") (Some "Button") ∧
   ∀ cwd, ¬ already_exists_case cwd (Some "add") (Some "Button")
              (mkWorld ∅ ∅ ∅ [])).
Proof.
  intros source target w run.
  assert (console (run (Some "add") None w).1
          = [(Err, msg_no_name); (Out, help_text)]) as H1 by reflexivity.
  assert (console (run (Some "remove") (Some "Button") w).1
          = [(Err, msg_unknown_command (Some "remove")); (Out, help_text)])
    as H2 by reflexivity.
  assert (console (run (Some "add") (Some "Button") w).1
          = [(Err, msg_failed code_of source (EACCES target));
             (Out, msg_added "Button")])
    as H3 by (vm_compute; reflexivity).
  assert (∀ c, ¬ unknown_component_case c None) as Hu1.
  { by intros c [_ (n & [=] & _)]. }
  assert (∀ d c x, ¬ already_exists_case d c None x) as He1.
  { by intros d c x [_ (n & [=] & _)]. }
  assert (¬ unknown_component_case (Some "add") (Some "Button")) as Hu3.
  { by intros [_ (n & [= <-] & _ & _ & [=])]. }
  split; [|split; [|split]].
  - split; [exact H1|]. split; [|split; [apply Hu1 | apply He1]].
    eexists. unfold printed. rewrite H1. apply list_elem_of_here.
  - split; [exact H2|]. split; [|split].
    + eexists. unfold printed. rewrite H2. apply list_elem_of_here.
    + by intros [[=] _].
    + by intros [[=] _].
  - split; [exact H3|]. split; [|split; [exact Hu3|]].
    + eexists. unfold printed. rewrite H3. apply list_elem_of_here.
    + intros [_ (n & [= <-] & _ & Hex)]. vm_compute in Hex. discriminate.
  - split; [reflexivity|]. split; [exact Hu3|].
    intros d [_ (n & [= <-] & _ & Hex)].
    apply pathExists_true in Hex as [[c Hc]|Hin]; [done|].
    by apply elem_of_empty in Hin.
Qed.

(** An unknown component name, in an empty project. *)
Lemma cli_failures_print_messages_witness :
  unknown_component_case (Some "add") (Some "Card") ∧
  ∃ n, Some "Card" = Some n ∧
       main code_of "/pkg" (Some "/app") (Some "add") (Some "Card")
         (mkWorld ∅ ∅ ∅ [])
       = (mkWorld ∅ ∅ ∅ (unknown_component_lines n), 0%Z).
Proof.
  assert (unknown_component_case (Some "add") (Some "Card")) as Hcase.
  { split; [reflexivity|]. exists "Card". repeat split; discriminate. }
  split; [exact Hcase|].
  destruct (cli_failures_print_messages code_of "/pkg" "/app" (Some "/app")
              (Some "add") (Some "Card") (mkWorld ∅ ∅ ∅ []))
    as (_ & _ & _ & _ & _ & H & _).
  exact (H Hcase).
Defined.

(** Adding Button to a project that does not have it. *)
Lemma cli_dispatch_witness :
  files
    (main code_of "/pkg" (Some "/app") (Some "add") (Some "Button")
       (mkWorld {[ "/pkg/components/ui/Button.tsx" := "export default Button;" ]}
          ∅ ∅ [])).1
  !! target_path "/app" "Button" = Some "export default Button;".
Proof.
  destruct (cli_dispatch code_of "/pkg" "/app" (Some "add") (Some "Button")
              (mkWorld
                 {[ "/pkg/components/ui/Button.tsx" := "export default Button;" ]}
                 ∅ ∅ [])) as (_ & _ & H & _).
  refine (proj1 (H "Button" "export default Button;" eq_refl eq_refl eq_refl
                   _ _ _)).
  - vm_compute. reflexivity.
  - vm_compute. reflexivity.
  - apply not_unwritable. reflexivity.
Defined.

(** Adding Button to a project that has its own Button already. *)
Lemma add_keeps_existing_files_witness :
  (main code_of "/pkg" (Some "/app") (Some "add") (Some "Button")
     (mkWorld {[ "/app/components/ui/Button.tsx" := "my own button" ]}
        ∅ ∅ [])).1
  = mkWorld {[ "/app/components/ui/Button.tsx" := "my own button" ]} ∅ ∅
      [(Out, msg_exists "Button")].
Proof.
  destruct (add_keeps_existing_files code_of "/pkg" "/app" (Some "add")
              (Some "Button")
              (mkWorld {[ "/app/components/ui/Button.tsx" := "my own button" ]}
                 ∅ ∅ [])) as (_ & H & _).
  refine (H "Button" eq_refl eq_refl eq_refl _).
  vm_compute. reflexivity.
Defined.

End CliFacts.

(** * Further properties of the toast provider *)

Module ToastMore.
Import Toast ToastFacts.

Section Lifecycle.

Context {ToastProps : Type}.
Implicit Types (s : State ToastProps) (p : ShowToastParams ToastProps).

Lemma two_53 : 2 ^ 53 = 9007199254740992.
Proof. reflexivity. Qed.

Lemma nextIdRef_showToast s p :
  nextIdRef (showToast p s) = js_succ (nextIdRef s).
Proof.
  unfold showToast. destruct (clearPending_fields s) as (_ & -> & _).
  by destruct (timer_delay _).
Qed.

Lemma nextIdRef_hideToast s : nextIdRef (hideToast s) = nextIdRef s.
Proof. unfold hideToast. simpl. apply clearPending_fields. Qed.

Lemma nextIdRef_step s o :
  nextIdRef (step s o) =
    if is_show o then js_succ (nextIdRef s) else nextIdRef s.
Proof.
  destruct o as [p| |h]; simpl.
  - apply nextIdRef_showToast.
  - apply nextIdRef_hideToast.
  - unfold fire. case_bool_decide; [|done]. by rewrite nextIdRef_hideToast.
Qed.

Lemma shows_cons (o : Op ToastProps) ops :
  shows (o :: ops) = (if is_show o then 1 else 0) + shows ops.
Proof. unfold shows. simpl. destruct (is_show o); simpl; lia. Qed.

Lemma shows_nonneg (ops : list (Op ToastProps)) : 0 ≤ shows ops.
Proof. unfold shows. lia. Qed.

Lemma nextIdRef_run ops s :
  0 ≤ nextIdRef s ≤ 2 ^ 53 →
  nextIdRef (run ops s) = Z.min (nextIdRef s + shows ops) (2 ^ 53).
Proof.
  revert s. induction ops as [|o ops IH]; intros s Hs.
  { unfold shows. simpl. lia. }
  simpl. pose proof (shows_nonneg ops) as Hn.
  pose proof (nextIdRef_step s o) as Hstep. rewrite shows_cons.
  unfold js_succ in Hstep. rewrite two_53 in *.
  destruct (is_show o).
  - destruct (Z.ltb_spec (nextIdRef s) 9007199254740992);
      rewrite IH; rewrite Hstep; lia.
  - rewrite IH; rewrite Hstep; lia.
Qed.

(** X1: the provider numbers its toasts in the order they are shown: after
    any activity, the next toast gets as id the number of [showToast]
    calls made so far, up to 2^53, where the counter stays. *)
Theorem toast_ids_count_shows (ops : list (Op ToastProps)) p :
  let s := run ops initial in
  nextIdRef s = Z.min (shows ops) (2 ^ 53) ∧
  currentToast (showToast p s)
    = Some (mkToastItem (Z.min (shows ops) (2 ^ 53)) (rest p)).
Proof.
  intros s.
  assert (nextIdRef s = Z.min (shows ops) (2 ^ 53)) as Hid.
  { unfold s. rewrite nextIdRef_run; [done|]. simpl. rewrite two_53. lia. }
  split; [done|]. by rewrite showToast_current, Hid.
Qed.

(** X2: once a toast is shown, only its own timer can act: on a reachable
    state, after [showToast], a timer event for any handle other than the
    one just started, and so for any timer that was pending before,
    changes nothing. *)
Theorem stale_timer_cannot_dismiss (ops : list (Op ToastProps)) p h :
  let s := run ops initial in
  h ≠ nextHandle s →
  fire h (showToast p s) = showToast p s ∧
  (∀ t, t ∈ timers s → fire (handle t) (showToast p s) = showToast p s).
Proof.
  intros s Hh. pose proof (inv_reachable ops) as Hinv. fold s in Hinv.
  destruct (showToast_timers s p Hinv) as [Hts _].
  assert (∀ h', h' ≠ nextHandle s →
                fire h' (showToast p s) = showToast p s) as Hfire.
  { intros h' Hh'. unfold fire. rewrite Hts.
    destruct (timer_delay _) as [n|]; [|done]. simpl.
    rewrite bool_decide_eq_false_2; [done|].
    by intros ->%list_elem_of_singleton. }
  split; [by apply Hfire|].
  intros t Ht. apply Hfire.
  destruct Hinv as (_ & Href & [Hnil | (h1 & d & Heq & Hr)]).
  - rewrite Hnil in Ht. by apply elem_of_nil in Ht.
  - rewrite Heq in Ht. apply list_elem_of_singleton in Ht as ->. simpl.
    specialize (Href _ Hr). lia.
Qed.

Lemma idle_showToast s p : idle_when_hidden (showToast p s).
Proof. intros H. by rewrite showToast_current in H. Qed.

Lemma idle_hideToast s : inv s → idle_when_hidden (hideToast s).
Proof.
  intros Hinv _. unfold hideToast. simpl. by apply clearPending_timers.
Qed.

Lemma idle_run ops :
  idle_when_hidden (run ops (@initial ToastProps)).
Proof.
  induction ops as [|o ops IH] using rev_ind; [done|].
  unfold run in *. rewrite fold_left_app. simpl.
  pose proof (inv_reachable ops) as Hinv. unfold run in Hinv.
  destruct o as [p| |h]; simpl.
  - apply idle_showToast.
  - by apply idle_hideToast.
  - unfold fire. case_bool_decide as Hin; [|done].
    apply idle_hideToast.
    destruct Hinv as (Hpos & Href & Ht). split; [done|]. split; [done|].
    simpl. destruct Ht as [Hnil | (h' & d & Ht & Hr)].
    + left. by rewrite Hnil.
    + rewrite Ht in *. simpl in Hin.
      apply list_elem_of_singleton in Hin as ->.
      left. rewrite filter_cons_False; [done|]. simpl. tauto.
Qed.

(** X3: no timer outlives its toast: in every reachable state in which
    nothing is displayed, no timer is pending and [timeoutRef] is null, so
    [hideToast] and every timer event leave the state as it is; and a
    pending timer always comes with a displayed toast. *)
Theorem hidden_means_idle (ops : list (Op ToastProps)) :
  let s := run ops initial in
  (currentToast s = None →
   timers s = [] ∧ timeoutRef s = None ∧ hideToast s = s ∧
   ∀ h, fire h s = s) ∧
  (timers s ≠ [] → is_Some (currentToast s)).
Proof.
  intros s. pose proof (idle_run ops) as Hidle. fold s in Hidle.
  split.
  - intros Hnone. destruct (Hidle Hnone) as [Ht Hr].
    split; [done|]. split; [done|]. split; [|intros h; by apply fire_idle].
    unfold hideToast, clearPending. rewrite Hr.
    destruct s; simpl in *; by subst.
  - intros Hne. destruct (currentToast s) eqn:E; [done|].
    by destruct (Hidle E).
Qed.

Lemma clearPending_idem s : clearPending (clearPending s) = clearPending s.
Proof.
  unfold clearPending at 2 3.
  destruct (timeoutRef s) as [h|] eqn:Hr; [destruct (truthy h) eqn:Hh|];
    unfold clearPending; simpl; rewrite ?Hr, ?Hh; done.
Qed.

(** X4: in any state, hiding twice is hiding once, and hiding before
    showing changes nothing about what [showToast] does. *)
Theorem hideToast_absorbed s p :
  hideToast (hideToast s) = hideToast s ∧
  showToast p (hideToast s) = showToast p s.
Proof.
  assert (clearPending (hideToast s) = hideToast s) as Hc.
  { unfold hideToast, clearPending. simpl.
    destruct (timeoutRef s) as [h|] eqn:Hr; [destruct (truthy h) eqn:Hh|];
      simpl; rewrite ?Hr, ?Hh; done. }
  split.
  - unfold hideToast at 1. by rewrite Hc.
  - unfold showToast. rewrite Hc. unfold hideToast. simpl.
    by destruct (timer_delay _).
Qed.

End Lifecycle.

(** A toast shown and hidden again: a further [hideToast] is a no-op. *)
Lemma hidden_means_idle_witness :
  let s := run [OpShow (mkParams None "saved"%string); OpHide] initial in
  currentToast s = None ∧ hideToast s = s.
Proof.
  split; [reflexivity|].
  destruct (hidden_means_idle
              [OpShow (mkParams None "saved"%string); OpHide]) as [H _].
  exact (proj1 (proj2 (proj2 (H eq_refl)))).
Defined.

(** A timer left from a first toast, after a second toast is shown. *)
Lemma stale_timer_cannot_dismiss_witness :
  let s := run [OpShow (mkParams None "first"%string)] initial in
  let s' := showToast (mkParams (Some (Millis 500)) "second"%string) s in
  1 ≠ nextHandle s ∧ fire 1 s' = s'.
Proof.
  split; [discriminate|].
  exact (proj1 (stale_timer_cannot_dismiss
                  [OpShow (mkParams None "first"%string)]
                  (mkParams (Some (Millis 500)) "second"%string) 1
                  ltac:(discriminate))).
Defined.

End ToastMore.

(** * Further properties of the theme provider *)

Module ThemeMore.
Import Theme ThemeFacts.

Local Open Scope string_scope.
Local Open Scope list_scope.

(** X5: on a storage that accepts requests, the stored mode never lags
    behind: in every state reached after a mount, by [setThemeMode] calls
    and the completion of the load, the value under ["themeMode"] is the
    current [themeMode]. *)
Theorem stored_mode_is_current (st0 : AsyncStorage) (ops : list Op) :
  failing st0 = false →
  let s := run ops (mount st0) in
  failing (storage s) = false ∧
  items (storage s) !! THEME_MODE_KEY = Some (mode_string (themeMode s)).
Proof.
  intros Hok s. destruct (mount_fields st0) as (_ & _ & Hf).
  rewrite Hok in Hf. exact (run_saved ops (mount st0) Hf (mount_saved st0 Hok)).
Qed.

(** After a first launch, switching to light and then to dark. *)
Lemma stored_mode_is_current_witness :
  failing (mkStorage ∅ false) = false ∧
  items (storage (run [OpLoadResolved; OpSetThemeMode light; OpSetThemeMode dark]
                    (mount (mkStorage ∅ false))))
    !! THEME_MODE_KEY = Some "dark".
Proof.
  split; [reflexivity|].
  exact (proj2 (stored_mode_is_current (mkStorage ∅ false)
                  [OpLoadResolved; OpSetThemeMode light; OpSetThemeMode dark]
                  eq_refl)).
Defined.

Lemma save_effect_other k s :
  k ≠ THEME_MODE_KEY →
  items (storage (save_effect s)) !! k = items (storage s) !! k.
Proof.
  intros Hk. unfold save_effect, setItem.
  destruct (failing (storage s)); [done|]. simpl. by apply lookup_insert_ne.
Qed.

Lemma setThemeMode_other k m s :
  k ≠ THEME_MODE_KEY →
  items (storage (setThemeMode m s)) !! k = items (storage s) !! k.
Proof.
  intros Hk. unfold setThemeMode. case_decide; [done|].
  by rewrite save_effect_other.
Qed.

Lemma load_resolved_other k s :
  k ≠ THEME_MODE_KEY →
  items (storage (load_resolved s)) !! k = items (storage s) !! k.
Proof.
  intros Hk. unfold load_resolved.
  destruct (loading s) as [[e|[stored|]]|]; try done.
  destruct (accept_stored stored); [|done]. by rewrite setThemeMode_other.
Qed.

Lemma run_other k ops s :
  k ≠ THEME_MODE_KEY →
  items (storage (run ops s)) !! k = items (storage s) !! k.
Proof.
  intros Hk. revert s. induction ops as [|o ops IH]; intros s; [done|].
  simpl. rewrite IH. destruct o; simpl;
    [by apply setThemeMode_other | by apply load_resolved_other].
Qed.

(** X6: the provider writes under one key only: whatever the storage
    holds under any key other than ["themeMode"] is the same after a mount
    and any later activity. *)
Theorem other_keys_untouched (st0 : AsyncStorage) (ops : list Op) (k : string) :
  k ≠ THEME_MODE_KEY →
  items (storage (run ops (mount st0))) !! k = items st0 !! k.
Proof.
  intros Hk. rewrite run_other by done. unfold mount.
  by rewrite save_effect_other.
Qed.

(** A session token stored by the application next to the theme mode. *)
Lemma other_keys_untouched_witness :
  "session" ≠ THEME_MODE_KEY ∧
  items (storage (run [OpLoadResolved; OpSetThemeMode dark]
                    (mount (mkStorage {[ "session" := "abc" ]} false))))
    !! "session" = Some "abc".
Proof.
  split; [discriminate|].
  exact (other_keys_untouched (mkStorage {[ "session" := "abc" ]} false)
           [OpLoadResolved; OpSetThemeMode dark] "session"
           ltac:(discriminate)).
Defined.

(** X7: a storage that rejects requests does not stop the theme from
    switching: [setThemeMode m] still makes [m] the current mode, the
    storage is left as it was, and one line is written to the error
    console when the mode changes (none when it does not). *)
Theorem failed_save_is_logged (m : ThemeMode) (s : State) :
  failing (storage s) = true →
  themeMode (setThemeMode m s) = m ∧
  storage (setThemeMode m s) = storage s ∧
  loading (setThemeMode m s) = loading s ∧
  errors (setThemeMode m s) =
    errors s ++ (if decide (m = themeMode s) then []
                 else ["Failed to save theme mode: " +:+ storage_error]).
Proof.
  intros Hfail. unfold setThemeMode. case_decide as Hm.
  - by rewrite app_nil_r.
  - unfold save_effect, setItem. simpl. by rewrite Hfail.
Qed.

(** Switching to dark while the storage is down. *)
Lemma failed_save_is_logged_witness :
  failing (storage (mkState system (mkStorage ∅ true) None [])) = true ∧
  themeMode (setThemeMode dark (mkState system (mkStorage ∅ true) None []))
  = dark.
Proof.
  split; [reflexivity|].
  exact (proj1 (failed_save_is_logged dark
                  (mkState system (mkStorage ∅ true) None []) eq_refl)).
Defined.

(** X8: a mount overwrites the stored mode before it has read it back: on
    a storage that accepts requests, right after the mount effects the
    value under ["themeMode"] is ["system"] whatever was stored, while the
    pending load still carries the old value; a provider mounted on the
    storage as it is at that point ends in mode ["system"]. *)
Theorem mount_overwrites_stored_mode (st : AsyncStorage) :
  failing st = false →
  items (storage (mount st)) !! THEME_MODE_KEY = Some "system" ∧
  loading (mount st) = Some (Resolved (items st !! THEME_MODE_KEY)) ∧
  themeMode (load_resolved (mount (storage (mount st)))) = system.
Proof.
  intros Hok.
  assert (items (storage (mount st)) !! THEME_MODE_KEY = Some "system") as Hs.
  { pose proof (mount_saved st Hok) as H. unfold saved in H.
    destruct (mount_fields st) as (Hm & _ & _). by rewrite Hm in H. }
  destruct (mount_fields st) as (_ & Hl & Hf). rewrite Hok in Hf.
  split; [done|]. split.
  - rewrite Hl. unfold getItem. by rewrite Hok.
  - rewrite load_resolved_mode.
    destruct (mount_fields (storage (mount st))) as (Hm & Hl' & _).
    rewrite Hm, Hl'. unfold getItem. by rewrite Hf, Hs.
Qed.

(** A stored dark mode, and a second mount before the first load ends. *)
Lemma mount_overwrites_stored_mode_witness :
  failing (mkStorage {[ "themeMode" := "dark" ]} false) = false ∧
  themeMode
    (load_resolved
       (mount (storage (mount (mkStorage {[ "themeMode" := "dark" ]} false)))))
  = system.
Proof.
  split; [reflexivity|].
  destruct (mount_overwrites_stored_mode
              (mkStorage {[ "themeMode" := "dark" ]} false) eq_refl)
    as (_ & _ & H).
  exact H.
Defined.

End ThemeMore.

(** * Properties of the alert provider *)

Module AlertFacts.
Import Alert.

Section Provider.

Context {ReactNode StyleProp : Type}.

(** X9: the alert on screen is the one of the last [showAlert]: after any
    sequence of [showAlert] and [hideAlert] calls, the content and the
    options are those of the most recent [showAlert] (an omitted [options]
    being the empty object, never the options of an earlier alert), a
    [hideAlert] changes only the visibility, and the alert is visible
    exactly when the last call was a [showAlert]. *)
Theorem last_showAlert_wins (ops : list (Op ReactNode StyleProp)) :
  let s := run ops initial in
  alertContent s =
    match last_shown ops with
    | Some p => content p
    | None => None
    end ∧
  alertOptions s =
    match last_shown ops with
    | Some p => default no_options (options p)
    | None => no_options
    end ∧
  isVisible s = ends_with_show ops.
Proof.
  induction ops as [|o ops IH] using rev_ind; [done|].
  unfold run, last_shown, ends_with_show in *.
  rewrite !fold_left_app, last_snoc. simpl in *.
  destruct IH as (Hc & Ho & _). destruct o as [p|]; simpl; [done|].
  by rewrite Hc, Ho.
Qed.

End Provider.

End AlertFacts.

(** * Further properties of the command-line tool *)

Module CliMore.
Import Cli CliFacts.

Local Open Scope string_scope.
Local Open Scope list_scope.

Local Arguments target_dirs : simpl never.
Local Arguments dir_chain : simpl never.

Section Process.

Variable inspect : JsError → string.
Variables dirname cwd : string.

Lemma addComponent_named n w :
  n ≠ "all" →
  world (addComponent inspect dirname (Some cwd) (Some n) w)
  = (if String.eqb n EmptyString then showHelp (error msg_no_name w)
     else world (addNamed inspect dirname (Some cwd) n w)).
Proof.
  intros Hall. unfold addComponent.
  destruct (String.eqb n EmptyString); [done|].
  by destruct (String.eqb_spec n "all").
Qed.

Lemma announce_console n w :
  ∃ rest, console (announce n w) = console w ++ [(Out, msg_added n)] ++ rest.
Proof.
  unfold announce. destruct (requiredDeps n) as [|d deps].
  - by exists [].
  - eexists [_]. cbn [log print console]. by rewrite <- app_assoc.
Qed.

(** X10: adding the same name twice: when the first run has copied the
    file, the second run finds the target, prints the already-exists line
    and changes nothing else. *)
Theorem add_twice_reports_existing (n content : string) (w : World) :
  isValidComponent n = true →
  files w !! source_path dirname n = Some content →
  pathExists (target_path cwd n) w = false →
  target_path cwd n ∉ unwritable w →
  let w1 := (main inspect dirname (Some cwd) (Some "add") (Some n) w).1 in
  files w1 !! target_path cwd n = Some content ∧
  main inspect dirname (Some cwd) (Some "add") (Some n) w1
    = (mkWorld (files w1) (dirs w1) (rejections w1)
         (console w1 ++ [(Out, msg_exists n)]), 0%Z).
Proof.
  intros Hv Hsrc Hex Hw w1.
  assert (files w1 !! target_path cwd n = Some content) as Htgt.
  { unfold w1. rewrite main_add. cbn [fst].
    rewrite addComponent_valid by done.
    by apply addValid_copies. }
  split; [done|]. rewrite main_add.
  rewrite addComponent_valid by done.
  rewrite addValid_existing; [done | done |].
  apply pathExists_true. left. by exists content.
Qed.

(** X11: Toast, Alert and blueTheme bring their context along: when the
    name's own target is free, the context's source is there and the
    context's target is free and writable, the context file is copied and
    announced, whether or not the copy of the name itself succeeds. *)
Theorem related_context_is_added (n ctx content : string) (w : World) :
  related_context n = Some ctx →
  pathExists (target_path cwd n) w = false →
  files w !! context_source dirname ctx = Some content →
  pathExists (context_target cwd ctx) w = false →
  context_target cwd ctx ∉ unwritable w →
  let w1 := (main inspect dirname (Some cwd) (Some "add") (Some n) w).1 in
  files w1 !! context_target cwd ctx = Some content ∧
  printed w w1 (Out, msg_auto_added ctx).
Proof.
  intros Hrel Hex Hsrc Hcex Hcw w1.
  destruct (related_context_inv n ctx Hrel) as [Hn Hctx].
  pose proof (allItems_valid n Hn) as Hv.
  destruct (context_is_valid cwd ctx Hctx) as [Hvc Heq].
  unfold w1. rewrite main_add. cbn [fst].
  rewrite addComponent_valid, addValid_absent by done. rewrite Hrel.
  cbn [world].
  set (w' := (copyFile inspect (source_path dirname n) (target_path cwd n) w).2).
  assert (follows inspect w w') as Hf.
  { apply follows_copyFile. by apply pathExists_false in Hex as [? _]. }
  apply pathExists_false in Hcex as [Hcnone Hcdir].
  destruct (addRelatedContext_copies inspect dirname cwd ctx content w')
    as [Hfile Hprint].
  - done.
  - eapply lookup_weaken; [exact Hsrc | apply Hf].
  - apply pathExists_false. split.
    + unfold w'. rewrite copyFile_other; [done|].
      intros Heq'. by eapply (allItems_target_not_context cwd n ctx).
    + unfold w'. intros [Hin|Hin]%copyFile_dirs; [done|].
      rewrite Heq in Hin.
      by apply (target_not_in_target_dirs cwd ctx n).
  - by rewrite (follows_unwritable _ _ _ Hf).
  - split; [by rewrite (proj1 (announce_files _ _))|].
    eapply printed_follows_l; [exact Hf|].
    eapply printed_follows_r; [exact Hprint | apply (follows_announce inspect)].
Qed.

(** X12: an add of one name touches nothing but its own places: the
    content of every file other than the target of the name and the target
    of its related context is after the run what it was before; every
    directory that exists after the run existed before or is the directory
    of one of these two targets or one of its ancestors; and when the
    name is valid, its target is free and [ensureDir] does not reject, the
    directory of the target and its ancestors exist after the run, whether
    or not the file is copied. *)
Theorem add_writes_only_its_targets (n : string) (w : World) :
  n ≠ "all" →
  let w1 := (main inspect dirname (Some cwd) (Some "add") (Some n) w).1 in
  (∀ p, p ≠ target_path cwd n →
        (∀ ctx, related_context n = Some ctx → p ≠ context_target cwd ctx) →
        files w1 !! p = files w !! p) ∧
  (∀ d, d ∈ dirs w1 →
        d ∈ dirs w ∨ d ∈ target_dirs (target_path cwd n) ∨
        ∃ ctx, related_context n = Some ctx ∧
               d ∈ target_dirs (context_target cwd ctx)) ∧
  (isValidComponent n = true → pathExists (target_path cwd n) w = false →
   (∀ made e,
      rejections w !! target_path cwd n ≠ Some (MkdirRejects made e)) →
   ∀ d, d ∈ target_dirs (target_path cwd n) → d ∈ dirs w1) ∧
  unwritable w1 = unwritable w.
Proof.
  intros Hall w1.
  assert (w1 = if String.eqb n EmptyString then showHelp (error msg_no_name w)
               else world (addNamed inspect dirname (Some cwd) n w)) as Hw1.
  { unfold w1. rewrite main_add. cbn [fst]. by apply addComponent_named. }
  split; [|split; [|split]].
  - intros p Hp Hctx. rewrite Hw1.
    destruct (String.eqb n EmptyString); [done|]. by apply addNamed_other.
  - intros d. rewrite Hw1.
    destruct (String.eqb n EmptyString); [by left|]. apply addNamed_dirs.
  - intros Hv Hex Hrej d Hd. unfold w1. rewrite main_add. cbn [fst].
    rewrite addComponent_valid, addValid_absent by done. cbn [world].
    rewrite (proj2 (announce_files _ _)).
    set (w' := (copyFile inspect (source_path dirname n) (target_path cwd n)
                  w).2).
    assert (d ∈ dirs w') as Hd' by by apply copyFile_makes_dirs.
    destruct (related_context n) as [ctx|] eqn:Hrel; [|done].
    destruct (related_context_inv n ctx Hrel) as [_ Hc%includes_true].
    by apply (follows_dirs _ _ _
                (follows_addRelatedContext inspect dirname (Some cwd) ctx w'
                   Hc)).
  - apply (follows_unwritable _ _ _
             (follows_main inspect dirname (Some cwd) (Some "add") (Some n) w)).
Qed.

(** X13: a copy that fails is still announced as a success: for a valid
    name whose target is free, when the source is missing or the target
    cannot be written, the run prints the copy error first and the
    successfully-added line after it, ends with status 0, and the target
    still does not exist. *)
Theorem failed_copy_is_announced (n : string) (w : World) :
  isValidComponent n = true →
  pathExists (target_path cwd n) w = false →
  files w !! source_path dirname n = None ∨ target_path cwd n ∈ unwritable w →
  let r := main inspect dirname (Some cwd) (Some "add") (Some n) w in
  (∃ e mid rest,
     console r.1
     = console w ++ [(Err, msg_failed inspect (source_path dirname n) e)]
         ++ mid ++ [(Out, msg_added n)] ++ rest) ∧
  r.2 = 0%Z ∧
  files r.1 !! target_path cwd n = None ∧
  pathExists (target_path cwd n) r.1 = false.
Proof.
  intros Hv Hex Hfail r.
  destruct (copyFile_fails inspect _ (target_path cwd n) w Hfail)
    as (e & made & Hmade & Hcopy).
  pose proof Hex as [Hnone Hdir]%pathExists_false.
  unfold r. rewrite main_add. cbn [fst snd].
  rewrite addComponent_valid, addValid_absent by done. rewrite Hcopy.
  cbn [snd world].
  set (w' := error (msg_failed inspect (source_path dirname n) e)
               (mkdirs made w)).
  set (w2 := match related_context n with
             | Some ctx =>
                 world (addRelatedContext inspect dirname (Some cwd) ctx w')
             | None => w'
             end).
  assert (follows inspect w' w2) as Hf.
  { unfold w2. destruct (related_context n) as [ctx|] eqn:Hrel;
      [|apply follows_refl].
    apply follows_addRelatedContext, includes_true.
    by destruct (related_context_inv n ctx Hrel). }
  assert (files w2 !! target_path cwd n = None) as Hfile.
  { unfold w2. destruct (related_context n) as [ctx|] eqn:Hrel; [|done].
    rewrite addRelatedContext_other; [done|].
    destruct (related_context_inv n ctx Hrel) as [Hn Hc].
    by apply allItems_target_not_context. }
  assert (target_path cwd n ∉ dirs w2) as Hnodir.
  { assert (target_path cwd n ∉ dirs w') as Hd'.
    { unfold w'. cbn [error print mkdirs dirs].
      rewrite elem_of_union, elem_of_list_to_set.
      intros [Hin|Hin]; [done|].
      by apply (target_not_in_target_dirs cwd n n), Hmade. }
    unfold w2. destruct (related_context n) as [ctx|] eqn:Hrel; [|done].
    intros [Hin|Hin]%addRelatedContext_dirs; [done|].
    destruct (related_context_inv n ctx Hrel) as [_ Hc].
    destruct (context_is_valid cwd ctx Hc) as [Hvc Heq]. rewrite Heq in Hin.
    by apply (target_not_in_target_dirs cwd n ctx). }
  split; [|split; [done|split]].
  - destruct (follows_console _ _ _ Hf) as (mid & Hmid & _).
    destruct (announce_console n w2) as [rest Hrest].
    exists e, mid, rest. rewrite Hrest, Hmid. unfold w'.
    cbn [error print mkdirs console]. by rewrite <- !app_assoc.
  - by rewrite (proj1 (announce_files _ _)).
  - apply pathExists_false.
    by rewrite (proj1 (announce_files _ _)), (proj2 (announce_files _ _)).
Qed.

End Process.

(** Adding Button twice to a project that did not have it. *)
Lemma add_twice_reports_existing_witness :
  let w := mkWorld
             {[ "/pkg/components/ui/Button.tsx" := "export default Button;" ]}
             ∅ ∅ [] in
  console
    (main code_of "/pkg" (Some "/app") (Some "add") (Some "Button")
       (main code_of "/pkg" (Some "/app") (Some "add") (Some "Button") w).1).1
  = [(Out, msg_created "/app/components/ui/Button.tsx");
     (Out, msg_added "Button"); (Out, msg_exists "Button")].
Proof.
  intros w.
  destruct (add_twice_reports_existing code_of "/pkg" "/app" "Button"
              "export default Button;" w) as [_ H].
  - reflexivity.
  - vm_compute. reflexivity.
  - vm_compute. reflexivity.
  - apply not_unwritable. reflexivity.
  - rewrite H. vm_compute. reflexivity.
Defined.

(** Adding Toast when only the source of its context is in the package. *)
Lemma related_context_is_added_witness :
  files
    (main code_of "/pkg" (Some "/app") (Some "add") (Some "Toast")
       (mkWorld
          {[ "/pkg/context/ToastContext.tsx" := "export const ToastContext;" ]}
          ∅ ∅ [])).1
  !! context_target "/app" "ToastContext" = Some "export const ToastContext;".
Proof.
  refine (proj1 (related_context_is_added code_of "/pkg" "/app" "Toast"
                   "ToastContext" "export const ToastContext;"
                   (mkWorld
                      {[ "/pkg/context/ToastContext.tsx"
                         := "export const ToastContext;" ]} ∅ ∅ [])
                   eq_refl _ _ _ _)).
  - vm_compute. reflexivity.
  - vm_compute. reflexivity.
  - vm_compute. reflexivity.
  - apply not_unwritable. reflexivity.
Defined.

(** A file of the project that an add of Toast does not touch, and a
    directory that the add makes although nothing can be copied. *)
Lemma add_writes_only_its_targets_witness :
  let w := mkWorld {[ "/app/App.tsx" := "export default App;" ]} ∅ ∅ [] in
  let w1 := (main code_of "/pkg" (Some "/app") (Some "add") (Some "Toast") w).1 in
  files w1 !! "/app/App.tsx" = Some "export default App;" ∧
  "/app/components/ui" ∈ dirs w1.
Proof.
  intros w w1.
  destruct (add_writes_only_its_targets code_of "/pkg" "/app" "Toast" w)
    as (Hfiles & _ & Hdirs & _); [discriminate|].
  split.
  - fold w1 in Hfiles. rewrite (Hfiles "/app/App.tsx").
    + vm_compute. reflexivity.
    + vm_compute. discriminate.
    + intros ctx [= <-]. vm_compute. discriminate.
  - apply Hdirs.
    + reflexivity.
    + vm_compute. reflexivity.
    + intros made e. discriminate.
    + apply list_elem_of_In. vm_compute. tauto.
Defined.

(** Adding Button from a package that lacks its source. *)
Lemma failed_copy_is_announced_witness :
  pathExists (target_path "/app" "Button")
    (main code_of "/pkg" (Some "/app") (Some "add") (Some "Button")
       (mkWorld ∅ ∅ ∅ [])).1 = false.
Proof.
  refine (proj2 (proj2 (proj2 (failed_copy_is_announced code_of "/pkg" "/app"
                                 "Button" (mkWorld ∅ ∅ ∅ []) eq_refl _ _)))).
  - vm_compute. reflexivity.
  - left. vm_compute. reflexivity.
Defined.

End CliMore.

(** * Properties of the components *)

Module ButtonFacts.
Import Ui Button.

(** X14: a button without a [variant] prop is a primary button: its
    background, text and border colours are those of variant ["primary"],
    whatever the other props are. *)
Theorem omitted_variant_is_primary (colors : Colors) (disabled : bool)
    (initialColor initialTextColor : option string) (outlined elevated : bool) :
  color colors disabled initialColor outlined elevated None
    = color colors disabled initialColor outlined elevated (Some primary) ∧
  textColor colors disabled initialTextColor outlined elevated None
    = textColor colors disabled initialTextColor outlined elevated (Some primary) ∧
  borderColor colors None = borderColor colors (Some primary).
Proof.
  unfold color, textColor.
  by destruct disabled, (truthy_string initialColor),
    (truthy_string initialTextColor), outlined, elevated.
Qed.

(** X15: on an enabled button, the colour of the variant sits either in
    the text or behind it: without a custom text colour, an outlined or
    elevated button has its text in the border colour, which is the colour
    of the variant; without a custom background colour, a button that is
    neither outlined nor elevated has that colour as its background. *)
Theorem variant_colour_placement (colors : Colors)
    (initialColor initialTextColor : option string) (outlined elevated : bool)
    (variant : option Variant) :
  (truthy_string initialTextColor = false → outlined || elevated = true →
   textColor colors false initialTextColor outlined elevated variant
     = borderColor colors variant) ∧
  (truthy_string initialColor = false → outlined = false → elevated = false →
   color colors false initialColor outlined elevated variant
     = borderColor colors variant).
Proof.
  unfold color, textColor, borderColor. split.
  - intros -> ->. by destruct variant as [[]|].
  - intros -> -> ->. by destruct variant as [[]|].
Qed.

(** An elevated success button with the default text colour. *)
Lemma variant_colour_placement_witness :
  textColor named_colors false None false true (Some success)
  = borderColor named_colors (Some success).
Proof.
  exact (proj1 (variant_colour_placement named_colors None None false true
                  (Some success)) eq_refl eq_refl).
Defined.

End ButtonFacts.

Module SegmentedControlFacts.
Import Ui SegmentedControl.

Section Tabs.

Context {Number Element : Type} (zero : Number) (colors : Colors).

(** X16: one tab per value, and only the positions count: the tabs
    depend on [selectedIndices] only through the indices of actual tabs
    that it contains, so entries out of range and repeated entries have no
    effect; the tab at position [i] has key [i], is selected exactly when
    [i] is among the selected indices, and has a right border exactly when
    it is the last one. *)
Theorem tabs_follow_positions (disabled : bool) (borderRadius : Number)
    (selectedIndices : list Z) (values : list Element) :
  length (tabs zero colors disabled borderRadius selectedIndices values)
    = length values ∧
  (∀ selectedIndices',
     (∀ i, (i < length values)%nat →
           Z.of_nat i ∈ selectedIndices ↔ Z.of_nat i ∈ selectedIndices') →
     tabs zero colors disabled borderRadius selectedIndices' values
     = tabs zero colors disabled borderRadius selectedIndices values) ∧
  (∀ i t,
     tabs zero colors disabled borderRadius selectedIndices values !! i
       = Some t →
     key t = i ∧
     (isSelected t = true ↔ Z.of_nat i ∈ selectedIndices) ∧
     (borderRightWidth (border t) = 1 ↔ S i = length values) ∧
     (borderRightWidth (border t) = 0 ↔ S i ≠ length values)).
Proof.
  unfold tabs. split; [apply length_imap|]. split.
  - intros sel' Hsel. apply imap_ext. intros i x Hx. simpl.
    apply lookup_lt_Some in Hx. unfold tab.
    by rewrite (bool_decide_ext _ _ (Hsel i Hx)).
  - intros i t. rewrite list_lookup_imap.
    destruct (values !! i) as [x|] eqn:Hx; [|done]. intros [= <-].
    apply lookup_lt_Some in Hx. unfold tab. simpl.
    split; [done|]. split; [apply bool_decide_eq_true|].
    destruct (Z.eqb_spec (Z.of_nat i) (Z.of_nat (length values) - 1));
      split; intros; try done; lia.
Qed.

End Tabs.

(** Three tabs, with the selection given once with and once without
    entries that name no tab. *)
Lemma tabs_follow_positions_witness :
  tabs 0 named_colors false 5 [1; 7; -2; 1] ["a"; "b"; "c"]%string
  = tabs 0 named_colors false 5 [1] ["a"; "b"; "c"]%string.
Proof.
  refine (proj1 (proj2 (tabs_follow_positions 0 named_colors false 5 [1]
                          ["a"; "b"; "c"]%string)) [1; 7; -2; 1] _).
  intros i Hi. simpl in Hi. rewrite !list_elem_of_In. simpl. lia.
Defined.

End SegmentedControlFacts.

Module TextInputFacts.
Import Ui TextInput.

(** X17: when the row under the field is rendered: for an enabled field,
    when there is an error message to show, or a counter, or space is
    retained; for a disabled field, only when space is retained and there
    is no error message to show.  So with [retainErrorMessageSpace] on,
    every enabled field has the row, and a disabled field in error with a
    message does not, whatever [counter] and [retainErrorMessageSpace]
    are. *)
Theorem bottom_row_rendered (error : bool) (errorMessage : option string)
    (disabled counter retainErrorMessageSpace : bool) :
  bottomRendered error errorMessage disabled counter retainErrorMessageSpace
  = (if disabled
     then retainErrorMessageSpace && negb (error && truthy_string errorMessage)
     else (error && truthy_string errorMessage) || counter
          || retainErrorMessageSpace) ∧
  (disabled = false → retainErrorMessageSpace = true →
   bottomRendered error errorMessage disabled counter retainErrorMessageSpace
   = true) ∧
  (disabled = true → error = true → truthy_string errorMessage = true →
   bottomRendered error errorMessage disabled counter retainErrorMessageSpace
   = false) ∧
  (errorShown error errorMessage disabled = true ∨
   counterShown counter disabled = true →
   bottomRendered error errorMessage disabled counter retainErrorMessageSpace
   = true).
Proof.
  unfold bottomRendered, errorShown, counterShown.
  destruct error, (truthy_string errorMessage), disabled, counter,
    retainErrorMessageSpace; simpl; repeat split; try done; by intros [|].
Qed.

(** A disabled field in error, with the default retained space. *)
Lemma bottom_row_rendered_witness :
  bottomRendered true (Some "Required"%string) true true true = false.
Proof.
  exact (proj1 (proj2 (proj2 (bottom_row_rendered true (Some "Required"%string)
                                true true true))) eq_refl eq_refl eq_refl).
Defined.

Lemma run_snoc events e s : run (events ++ [e]) s = step (run events s) e.
Proof. unfold run. by rewrite fold_left_app. Qed.

(** X18: focus events that arrive while the field is disabled are
    swallowed: after any sequence of events, the callbacks of the props
    have been called once for each blur and for each focus received while
    enabled, in order, and the field is focused exactly when the last of
    those was a focus.  A field that is disabled at every focus event is
    never focused and never calls [onFocus]. *)
Theorem disabled_focus_is_swallowed (events : list Event) :
  let s := run events initial in
  forwarded s = List.map callback_of (List.filter effective events) ∧
  isFocused s =
    match last (List.filter effective events) with
    | Some (Focus _) => true
    | _ => false
    end ∧
  ((∀ d, Focus d ∈ events → d = true) →
   isFocused s = false ∧ OnFocus ∉ forwarded s).
Proof.
  induction events as [|e events IH] using rev_ind.
  { repeat split; try done. apply not_elem_of_nil. }
  destruct IH as (Hfw & Hfoc & Hdis).
  rewrite run_snoc, List.filter_app, List.map_app. simpl.
  assert ((∀ d, Focus d ∈ events ++ [e] → d = true) →
          ∀ d, Focus d ∈ events → d = true) as Hweak.
  { intros H d Hd. apply H, elem_of_app. by left. }
  destruct e as [[]|d]; simpl.
  - rewrite !app_nil_r. repeat split; try done; by apply Hdis, Hweak.
  - unfold handleFocus. simpl. rewrite Hfw, last_snoc.
    split; [done|]. split; [done|]. intros Hall.
    assert (false = true) as Habs; [|done].
    apply Hall, elem_of_app. right. by apply list_elem_of_singleton.
  - unfold handleBlur. simpl. rewrite Hfw, last_snoc.
    split; [done|]. split; [done|]. intros Hall. split; [done|].
    destruct (Hdis (Hweak Hall)) as [_ Hno]. rewrite Hfw in Hno.
    rewrite elem_of_app, list_elem_of_singleton. by intros [Hin|[=]].
Qed.

(** A focus on a disabled field between two blurs. *)
Lemma disabled_focus_is_swallowed_witness :
  isFocused (run [Blur true; Focus true; Blur true] initial) = false ∧
  OnFocus ∉ forwarded (run [Blur true; Focus true; Blur true] initial).
Proof.
  refine (proj2 (proj2 (disabled_focus_is_swallowed
                          [Blur true; Focus true; Blur true])) _).
  intros d Hd. apply list_elem_of_In in Hd. simpl in Hd.
  destruct Hd as [[=]|[[=]|[[=]|[]]]]. done.
Defined.

End TextInputFacts.
